(** * Rock-paper-scissors simulator: the simulation core of [src/main.ts]

    A shallow embedding of the entity store, the motion integrator, the
    collision resolver, the spawner and the frame driver, with the properties
    of the specification proved over it.

    Numbers.  A finite JavaScript [number] is a binary64 value, hence a
    rational: numbers are modelled as [Q].  The arithmetic of the code is
    the exact operation followed by the rounding [fl] to the nearest value
    of the format, ties to even ([fadd], [fsub], [fmul], [fdiv]);
    comparisons, [Math.max], [Math.min] and the multiplication by [-1] are
    exact, as they are on binary64 values.  [Math.hypot], [Math.cos],
    [Math.sin], [Math.PI] and the stream of [Math.random()] are parameters:
    the platform decides them.  Infinities, NaN and overflow are outside the
    model.

    Objects.  Entities are objects with identity: the per-element arrays hold
    references to the very objects of the canonical array [entities].
    [createEntity] is the only place that allocates an entity and nothing ever
    removes one from [entities], so a reference is modelled as the index of
    the entity in the canonical array.  The [pos] array handed to
    [createEntity] is an array literal at both call sites, so positions are
    stored by value. *)

From stdpp Require Import base list.
From Stdlib Require Import ZArith QArith Qminmax Qround Qabs Qpower Qreduction.
From Stdlib Require Import Lia Lqa.

Local Open Scope Q_scope.

(** ** Numbers: binary64 arithmetic *)

(** [2^z] *)
Definition pow2 (z : Z) : Q := 2 ^ z.

(** The integer part of the binary logarithm of a positive number. *)
Definition ilog2 (q : Q) : Z :=
  let l := (Z.log2 (Qnum q) - Z.log2 (Zpos (Qden q)))%Z in
  if Qle_bool (pow2 l) q then l else (l - 1)%Z.

(** Rounding to the nearest integer, ties to the even one. *)
Definition rne (q : Q) : Z :=
  let f := Qfloor q in
  match Qcompare (q - inject_Z f) (1 # 2) with
  | Lt => f
  | Gt => (f + 1)%Z
  | Eq => if Z.even f then f else (f + 1)%Z
  end.

(** The exponent of the smallest positive value of the format. *)
Definition emin : Z := -1074.

(** The exponent of the last place of a positive number: 53 significant
    bits, or [emin] for a subnormal number. *)
Definition expo (q : Q) : Z := Z.max emin (ilog2 q - 52).

Definition round_pos (q : Q) : Q :=
  inject_Z (rne (q * pow2 (- expo q))) * pow2 (expo q).

(** The rounding of binary64: to the nearest value of the format, ties to
    even.  The result is a reduced fraction. *)
Definition fl (x : Q) : Q :=
  let x := Qred x in
  match Qcompare x 0 with
  | Eq => 0
  | Gt => Qred (round_pos x)
  | Lt => - Qred (round_pos (- x))
  end.

(** [a + b], [a - b], [a * b] and [a / b] on numbers. *)
Definition fadd (a b : Q) : Q := fl (a + b).
Definition fsub (a b : Q) : Q := fl (a - b).
Definition fmul (a b : Q) : Q := fl (a * b).
Definition fdiv (a b : Q) : Q := fl (a / b).

(** A value of the format: [M * 2^e] with [|M| <= 2^53] and [e >= emin]. *)
Definition representable (y : Q) : Prop :=
  exists M e, (Z.abs M <= 2 ^ 53)%Z /\ (emin <= e)%Z
              /\ y == inject_Z M * pow2 e.

(** The square root rounded to the nearest value of the format. *)
Definition fsqrt (q : Q) : Q :=
  let q := Qred q in
  match Qcompare q 0 with
  | Gt =>
      let e := (ilog2 q / 2 - 52)%Z in
      let y := q * pow2 (- (2 * e)) in
      let s := Z.sqrt (Qfloor y) in
      let m := match Qcompare (y * 4) (inject_Z ((2 * s + 1) * (2 * s + 1))) with
               | Lt => s
               | Gt => (s + 1)%Z
               | Eq => if Z.even s then s else (s + 1)%Z
               end in
      fl (inject_Z m * pow2 e)
  | _ => 0
  end.

(** One possible [Math.hypot]: the correctly rounded one.  It is used where
    a property is evaluated on a concrete platform. *)
Definition hypot_cr (dx dy : Q) : Q := fsqrt (dx * dx + dy * dy).

(** The binary64 value of [Math.PI]. *)
Definition PI64 : Q := 884279719003555 # 281474976710656.

(** A stream of draws standing for [Math.random()]: [1/2, 1/3, 1/4, ...],
    rounded. *)
Definition sample_random (n : nat) : Q :=
  fl (1 / (inject_Z (Z.of_nat n) + 2)).

(** Values standing for [Math.cos] and [Math.sin]: the rational
    parametrisation of the unit circle, rounded. *)
Definition sample_cos (d : Q) : Q := fl ((1 - d * d) / (1 + d * d)).
Definition sample_sin (d : Q) : Q := fl (2 * d / (1 + d * d)).

(** ** Data model *)

(** [type Element = "rock" | "paper" | "scissors"] *)
Inductive Element : Type := rock | paper | scissors.

Global Instance Element_eq_dec : EqDecision Element.
Proof. solve_decision. Defined.

(** [type Vec2 = [number, number]] *)
Definition Vec2 : Type := (Q * Q)%type.

(** [type Entity = { pos; vel; element }] *)
Record Entity : Type := mkEntity {
  pos : Vec2;
  vel : Vec2;
  element : Element
}.

(** A reference to an entity object. *)
Abbreviation Ref := nat (only parsing).

Definition ENTITY_SIZE : Q := 10.
Definition ENTITY_SPEED : Q := 1.

Definition width : Q := 400.
Definition height : Q := 400.

(** The canvas is created with [width] and [height]; [updateEntity] reads
    [canvas.width] and [canvas.height]. *)
Record Canvas : Type := mkCanvas { canvas_width : Q; canvas_height : Q }.
Definition canvas : Canvas := mkCanvas width height.

(** [entityByElement : Record<Element, Entity[]>] *)
Record ByElement : Type := mkByElement {
  of_rock : list Ref;
  of_paper : list Ref;
  of_scissors : list Ref
}.

(** [tbl[k]] *)
Definition get (tbl : ByElement) (k : Element) : list Ref :=
  match k with
  | rock => of_rock tbl
  | paper => of_paper tbl
  | scissors => of_scissors tbl
  end.

(** [tbl[k] = l] (the arrays are mutated in place; the table keeps its three keys) *)
Definition put (tbl : ByElement) (k : Element) (l : list Ref) : ByElement :=
  match k with
  | rock => mkByElement l (of_paper tbl) (of_scissors tbl)
  | paper => mkByElement (of_rock tbl) l (of_scissors tbl)
  | scissors => mkByElement (of_rock tbl) (of_paper tbl) l
  end.

(** The global mutable state of the module: the canonical array, the
    per-element arrays, and the number of [Math.random()] calls made so far
    (the position in the platform's random stream). *)
Record Store : Type := mkStore {
  entities : list Entity;
  entityByElement : ByElement;
  randomCalls : nat
}.

(** The state at module load, before the three initial clusters. *)
Definition initial : Store := mkStore [] (mkByElement [] [] []) 0.

(** ** Vector utilities *)

(** [a < b] on numbers *)
Definition Qltb (a b : Q) : bool := negb (Qle_bool b a).

(** [Math.max(min, Math.min(max, value))] *)
Definition clamp (value min max : Q) : Q := Qmax min (Qmin max value).

(** ** Array primitives used by the store *)

(** [l.indexOf(x)]: the first index holding [x], [-1] when there is none. *)
Fixpoint indexOf (l : list Ref) (x : Ref) : Z :=
  match l with
  | [] => (-1)%Z
  | y :: t =>
      if Nat.eqb y x then 0%Z
      else let r := indexOf t x in
           if (r <? 0)%Z then (-1)%Z else (r + 1)%Z
  end.

(** [l.splice(index, 1)]: a negative [index] counts from the end of the array
    (so [-1] removes the last element); an index past the end removes
    nothing. *)
Definition splice1 (l : list Ref) (index : Z) : list Ref :=
  let len := Z.of_nat (length l) in
  let start := if (index <? 0)%Z then Z.max (len + index) 0 else Z.min index len in
  delete (Z.to_nat start) l.

(** ** Entity store *)

Definition setElement (e : Entity) (k : Element) : Entity :=
  mkEntity (pos e) (vel e) k.

(** [changeEntityElement(entity, element)] *)
Definition changeEntityElement (s : Store) (entity : Ref) (k : Element) : Store :=
  match entities s !! entity with
  | None => s
  | Some e =>
      let tbl := entityByElement s in
      let index := indexOf (get tbl (element e)) entity in
      let tbl1 := put tbl (element e) (splice1 (get tbl (element e)) index) in
      let tbl2 := put tbl1 k (get tbl1 k ++ [entity]) in
      mkStore (<[entity := setElement e k]> (entities s)) tbl2 (randomCalls s)
  end.

(** [entityByElement[k].length] *)
Definition countOf (s : Store) (k : Element) : nat :=
  length (get (entityByElement s) k).

(** ** Motion integrator *)

(** One axis of [updateEntity]: add the velocity, and when the position left
    [[ENTITY_SIZE, bound - ENTITY_SIZE]] negate the velocity and clamp.  The
    bound of the code is [canvas.width] or [canvas.height], 400, for which
    [bound - ENTITY_SIZE] is the exact 390. *)
Definition updateAxis (bound p v : Q) : Q * Q :=
  let p := fadd p v in
  if Qltb p ENTITY_SIZE || Qltb (bound - ENTITY_SIZE) p
  then (clamp p ENTITY_SIZE (bound - ENTITY_SIZE), v * -1)
  else (p, v).

(** [updateEntity(entity)] on the fields of the entity. *)
Definition updateEntity (e : Entity) : Entity :=
  let x := updateAxis (canvas_width canvas) (fst (pos e)) (fst (vel e)) in
  let y := updateAxis (canvas_height canvas) (snd (pos e)) (snd (vel e)) in
  mkEntity (fst x, fst y) (snd x, snd y) (element e).

(** [updateEntity(entity)] on the store: the object is mutated in place. *)
Definition updateEntityAt (s : Store) (entity : Ref) : Store :=
  match entities s !! entity with
  | None => s
  | Some e =>
      mkStore (<[entity := updateEntity e]> (entities s))
              (entityByElement s) (randomCalls s)
  end.

(** ** Collision resolver *)

Section Platform.
(** [Math.hypot] of the platform, on two numbers. *)
Variable hypot : Q -> Q -> Q.

(** The element that beats [k]. *)
Definition enemyOf (k : Element) : Element :=
  match k with
  | rock => paper
  | paper => scissors
  | scissors => rock
  end.

(** [Math.hypot(entity.pos[0] - enemy.pos[0], entity.pos[1] - enemy.pos[1])]:
    the distance between two entities as the code computes it. *)
Definition distance (e enemy : Entity) : Q :=
  hypot (fsub (fst (pos e)) (fst (pos enemy)))
        (fsub (snd (pos e)) (snd (pos enemy))).

(** [distance < ENTITY_SIZE * 2], the test of [checkCollision]
    ([ENTITY_SIZE * 2] is the exact 20). *)
Definition collides (e enemy : Entity) : bool :=
  Qltb (distance e enemy) (ENTITY_SIZE * 2).

(** The [for (const enemy of enemies)] loop with its [break]. *)
Fixpoint scanEnemies (s : Store) (entity : Ref) (e : Entity)
    (enemies : list Ref) : Store :=
  match enemies with
  | [] => s
  | r :: rest =>
      match entities s !! r with
      | Some enemy =>
          if collides e enemy
          then changeEntityElement s entity (element enemy)
          else scanEnemies s entity e rest
      | None => scanEnemies s entity e rest
      end
  end.

(** [checkCollision(entity)] *)
Definition checkCollision (s : Store) (entity : Ref) : Store :=
  match entities s !! entity with
  | None => s
  | Some e =>
      scanEnemies s entity e (get (entityByElement s) (enemyOf (element e)))
  end.

(** ** Frame driver *)

(** The body of the loop of [update]. *)
Definition updateOne (s : Store) (entity : Ref) : Store :=
  checkCollision (updateEntityAt s entity) entity.

(** [update()]: one pass over the canonical array. *)
Definition update (s : Store) : Store :=
  foldl updateOne s (seq 0 (length (entities s))).

(** ** Spawner *)

(** [Math.random()]: the next value of the platform's random stream. *)
Definition Math_random (random : nat -> Q) (s : Store) : Q * Store :=
  (random (randomCalls s),
   mkStore (entities s) (entityByElement s) (S (randomCalls s))).

(** [ENTITY_SPEED * (u * 0.5 + 0.5)], the speed that [createEntity] computes
    from the value [u] of [Math.random()]. *)
Definition spawnSpeed (u : Q) : Q :=
  fmul ENTITY_SPEED (fadd (fmul u (1 # 2)) (1 # 2)).

Section Spawner.
(** The platform: the stream behind [Math.random()], and [Math.cos],
    [Math.sin] and [Math.PI] on numbers. *)
Variable random : nat -> Q.
Variables cos sin : Q -> Q.
Variable PI : Q.

(** [createEntity(pos, direction, element)] *)
Definition createEntity (s : Store) (p : Vec2) (direction : Q)
    (k : Element) : Store :=
  let '(u, s) := Math_random random s in
  let speed := spawnSpeed u in
  let v : Vec2 := (fmul (cos direction) speed, fmul (sin direction) speed) in
  let tbl := entityByElement s in
  mkStore (entities s ++ [mkEntity p v k])
          (put tbl k (get tbl k ++ [length (entities s)]))
          (randomCalls s).

(** The body of the loop of [generateEntities]. *)
Definition generateOne (around : Vec2) (spread : Q) (k : Element)
    (s : Store) : Store :=
  let '(u1, s) := Math_random random s in
  let direction := fmul (fmul u1 PI) 2 in
  let '(u2, s) := Math_random random s in
  let d := fmul u2 spread in
  let p : Vec2 := (fadd (fst around) (fmul (cos direction) d),
                   fadd (snd around) (fmul (sin direction) d)) in
  createEntity s p direction k.

(** [for (let i = 0; i < count; i++) body]: [fuel] bounds the number of
    iterations; [iterations count] is enough for the loop to leave through
    its condition. *)
Fixpoint generateLoop (fuel i : nat) (count : Q) (body : Store -> Store)
    (s : Store) : Store :=
  match fuel with
  | O => s
  | S fuel =>
      if Qltb (inject_Z (Z.of_nat i)) count
      then generateLoop fuel (S i) count body (body s)
      else s
  end.

Definition iterations (count : Q) : nat := Z.to_nat (Qceiling count).

(** [generateEntities(around, spread, count, element)] *)
Definition generateEntities (s : Store) (around : Vec2) (spread count : Q)
    (k : Element) : Store :=
  generateLoop (iterations count) 0 count (generateOne around spread k) s.

Definition COUNT : Q := 50.
Definition SPREAD : Q := 50.

(** The three clusters generated at module load. *)
Definition start : Store :=
  let w := canvas_width canvas in
  let h := canvas_height canvas in
  let s := generateEntities initial (fdiv w 4, fdiv h 3) SPREAD COUNT rock in
  let s := generateEntities s (fdiv w 2, fmul (fdiv h 3) 2) SPREAD COUNT
             paper in
  generateEntities s (fmul (fdiv w 4) 3, fdiv h 3) SPREAD COUNT scissors.

(** The click listener of the canvas: a random element, a random direction,
    one entity at the pointer. *)
Definition onClick (s : Store) (offsetX offsetY : Q) : Store :=
  let '(u1, s) := Math_random random s in
  let '(k, s) :=
    if Qltb u1 (fdiv 1 3) then (rock, s)
    else let '(u2, s) := Math_random random s in
         (if Qltb u2 (1 # 2) then paper else scissors, s) in
  let '(u3, s) := Math_random random s in
  createEntity s (offsetX, offsetY) (fmul (fmul u3 PI) 2) k.

(** What happens to the store between frames: a tick, a spawn of one entity,
    a spawn of a cluster, a click. *)
Inductive Action : Type :=
| Tick
| SpawnAt (p : Vec2) (direction : Q) (k : Element)
| SpawnCluster (around : Vec2) (spread count : Q) (k : Element)
| Click (offsetX offsetY : Q).

Definition perform (s : Store) (a : Action) : Store :=
  match a with
  | Tick => update s
  | SpawnAt p direction k => createEntity s p direction k
  | SpawnCluster around spread count k =>
      generateEntities s around spread count k
  | Click offsetX offsetY => onClick s offsetX offsetY
  end.

Definition run (s : Store) (actions : list Action) : Store :=
  foldl perform s actions.
End Spawner.

(** ** The partition invariant *)

(** [entity.element] of the object behind a reference. *)
Definition kindOf (s : Store) (r : Ref) : option Element :=
  element <$> entities s !! r.

(** [entityByElement[k]] *)
Definition members (s : Store) (k : Element) : list Ref :=
  get (entityByElement s) k.

(** The three per-element arrays partition the canonical array: no array
    holds an entity twice, no entity is in two arrays, the entities in the
    arrays are those of the canonical array, and each entity is in the array
    of its [element] field. *)
Record partition (s : Store) : Prop := mkPartition {
  part_nodup : forall k, NoDup (members s k);
  part_disjoint : forall k1 k2 r,
    r ∈ members s k1 -> r ∈ members s k2 -> k1 = k2;
  part_cover : forall r,
    (exists k, r ∈ members s k) <-> (r < length (entities s))%nat;
  part_kind : forall r e,
    entities s !! r = Some e -> r ∈ members s (element e)
}.

(** A decision procedure for the invariant. *)
Definition partition_check (s : Store) : bool :=
  bool_decide
    (Forall (fun k => NoDup (members s k)
                      /\ Forall (fun r => kindOf s r = Some k) (members s k))
            [rock; paper; scissors]
     /\ Forall (fun r => r ∈ members s rock ++ members s paper ++ members s scissors)
               (seq 0 (length (entities s)))).

(** The stores that the program can be in when [updateEntity] or
    [checkCollision] is called: those reached from a store by steps of the
    motion integrator and of the collision resolver on live entities. *)
Inductive steps (s0 : Store) : Store -> Prop :=
| steps_here : steps s0 s0
| steps_move s r :
    steps s0 s -> (r < length (entities s))%nat -> steps s0 (updateEntityAt s r)
| steps_resolve s r :
    steps s0 s -> (r < length (entities s))%nat -> steps s0 (checkCollision s r).

(** The squared Euclidean distance between two positions. *)
Definition dist2 (p q : Vec2) : Q :=
  (fst p - fst q) * (fst p - fst q) + (snd p - snd q) * (snd p - snd q).

(** The Euclidean distance between two entities is strictly less than
    [2 * ENTITY_SIZE] (compared through the squares). *)
Definition closer (e o : Entity) : Prop :=
  dist2 (pos e) (pos o) < (2 * ENTITY_SIZE) * (2 * ENTITY_SIZE).

(** The entity behind [other] is in range of the one behind [entity]: the
    distance the code computes between them is below [ENTITY_SIZE * 2]. *)
Definition inRange (s : Store) (entity other : Ref) : Prop :=
  exists e o, entities s !! entity = Some e /\ entities s !! other = Some o
              /\ distance e o < ENTITY_SIZE * 2.

(** The same with the Euclidean distance between the two positions. *)
Definition euclidInRange (s : Store) (entity other : Ref) : Prop :=
  exists e o, entities s !! entity = Some e /\ entities s !! other = Some o
              /\ closer e o.

(** The position is inside the arena shrunk by [ENTITY_SIZE] on each side. *)
Definition inArena (e : Entity) : Prop :=
  (ENTITY_SIZE <= fst (pos e) <= canvas_width canvas - ENTITY_SIZE)
  /\ (ENTITY_SIZE <= snd (pos e) <= canvas_height canvas - ENTITY_SIZE).

(** The position computed by the Euler step left the shrunk arena on an
    axis: the test of [updateEntity]. *)
Definition leaves (bound p v : Q) : Prop :=
  fadd p v < ENTITY_SIZE \/ bound - ENTITY_SIZE < fadd p v.

(** Example stores: a single entity, and a rock next to a paper. *)
Definition single (e : Entity) : Store :=
  mkStore [e] (put (mkByElement [] [] []) (element e) [0%nat]) 0.

Definition store2 : Store :=
  mkStore [mkEntity (100, 100) (0, 0) rock; mkEntity (101, 100) (0, 0) paper]
          (mkByElement [0%nat] [1%nat] []) 0.

(** A rock at [(0.7, 100)] and a paper at [(20.7, 100)], the coordinates
    being the binary64 values of these decimals. *)
Definition storeNear : Store :=
  mkStore [mkEntity (fl (7 # 10), 100) (0, 0) rock;
           mkEntity (fl (207 # 10), 100) (0, 0) paper]
          (mkByElement [0%nat] [1%nat] []) 0.

(** ** Rendering *)







(** ** The end of a recording *)

(** The count of [loop]: [elementsLeft] starts at 3 and is decremented for
    each per-element array of length 0. *)
Definition elementsLeft (s : Store) : Z :=
  let n := 3%Z in
  let n := if Nat.eqb (length (of_rock (entityByElement s))) 0 then (n - 1)%Z else n in
  let n := if Nat.eqb (length (of_paper (entityByElement s))) 0 then (n - 1)%Z else n in
  let n := if Nat.eqb (length (of_scissors (entityByElement s))) 0 then (n - 1)%Z else n in
  n.

(** The last block of [loop], run on a recorded frame: [now] is the value of
    [performance.now()]; the result is the new [timeWhenDone] and whether
    [canvasRecorder.stop()] is called. *)
Definition settle (s : Store) (timeWhenDone now : Q) : Q * bool :=
  if (elementsLeft s <=? 1)%Z then
    if Qeq_bool timeWhenDone 0 then (now, false)
    else if Qltb 1000 (fsub now timeWhenDone) then (timeWhenDone, true)
    else (timeWhenDone, false)
  else (timeWhenDone, false).

(** The recorded frames of a run: each frame ticks the store and then runs
    the last block of [loop] at its time; the result is the store, the
    latched time and whether the recorder was stopped at some frame. *)
Definition frame (st : Store * Q * bool) (now : Q) : Store * Q * bool :=
  let '(s, timeWhenDone, stopped) := st in
  let s := update s in
  let '(t, stop) := settle s timeWhenDone now in
  (s, t, stopped || stop).

(** * Properties *)

(** ** Binary64 rounding *)

(** ** Powers of two *)

Lemma pow2_pos (z : Z) : 0 < pow2 z.
Proof. apply Qpower_0_lt. reflexivity. Qed.

Lemma pow2_plus (a b : Z) : pow2 (a + b) == pow2 a * pow2 b.
Proof. apply Qpower_plus. discriminate. Qed.

Lemma pow2_le (a b : Z) : (a <= b)%Z -> pow2 a <= pow2 b.
Proof. intros H. apply Qpower_le_compat_l; [done|]. discriminate. Qed.

Lemma pow2_lt (a b : Z) : (a < b)%Z -> pow2 a < pow2 b.
Proof. intros H. apply Qpower_lt_compat_l; [done|]. reflexivity. Qed.

Lemma pow2_inv (e : Z) : pow2 (- e) * pow2 e == 1.
Proof. rewrite <- pow2_plus. by replace (- e + e)%Z with 0%Z by lia. Qed.

Lemma pow2_int (k : Z) : (0 <= k)%Z -> pow2 k == inject_Z (2 ^ k).
Proof. intros H. symmetry. by apply (Zpower_Qpower 2 k). Qed.

(** ** The binary logarithm *)

Lemma ilog2_spec (q : Q) :
  0 < q -> pow2 (ilog2 q) <= q /\ q < pow2 (ilog2 q + 1).
Proof.
  intros Hq. unfold ilog2. destruct q as [n qd]. simpl Qnum. simpl Qden.
  set (q := n # qd) in *. set (d := Zpos qd).
  assert (Hn : (0 < n)%Z).
  { unfold Qlt in Hq. simpl in Hq. lia. }
  assert (Hd : (0 < d)%Z) by (subst d; lia).
  destruct (Z.log2_spec n Hn) as [Hn1 Hn2].
  destruct (Z.log2_spec d Hd) as [Hd1 Hd2].
  set (a := Z.log2 n) in *. set (b := Z.log2 d) in *.
  assert (Ha : (0 <= a)%Z) by apply Z.log2_nonneg.
  assert (Hb : (0 <= b)%Z) by apply Z.log2_nonneg.
  assert (HD : 0 < inject_Z d) by (unfold Qlt; simpl; lia).
  assert (Hqd : q * inject_Z d == inject_Z n).
  { unfold Qeq, q, d. simpl. rewrite !Z.mul_1_r, Pos.mul_1_r. reflexivity. }
  assert (N1 : pow2 a <= inject_Z n)
    by (rewrite pow2_int by done; by rewrite <- Zle_Qle).
  assert (N2 : inject_Z n < pow2 (a + 1))
    by (rewrite pow2_int by lia; by rewrite <- Zlt_Qlt).
  assert (D1 : pow2 b <= inject_Z d)
    by (rewrite pow2_int by done; by rewrite <- Zle_Qle).
  assert (D2 : inject_Z d < pow2 (b + 1))
    by (rewrite pow2_int by lia; by rewrite <- Zlt_Qlt).
  assert (Hup : q < pow2 (a - b + 1)).
  { apply (Qmult_lt_r _ _ (inject_Z d) HD). rewrite Hqd.
    assert (E : pow2 (a + 1) == pow2 (a - b + 1) * pow2 b).
    { rewrite <- pow2_plus. by replace (a - b + 1 + b)%Z with (a + 1)%Z by lia. }
    pose proof (pow2_pos (a - b + 1)) as Hp.
    assert (pow2 (a - b + 1) * pow2 b <= pow2 (a - b + 1) * inject_Z d)
      by (by apply Qmult_le_l).
    lra. }
  assert (Hlo : pow2 (a - b - 1) < q).
  { apply (Qmult_lt_r _ _ (inject_Z d) HD). rewrite Hqd.
    assert (E : pow2 a == pow2 (a - b - 1) * pow2 (b + 1)).
    { rewrite <- pow2_plus. by replace (a - b - 1 + (b + 1))%Z with a by lia. }
    pose proof (pow2_pos (a - b - 1)) as Hp.
    assert (pow2 (a - b - 1) * inject_Z d < pow2 (a - b - 1) * pow2 (b + 1))
      by (by apply Qmult_lt_l).
    lra. }
  destruct (Qle_bool (pow2 (a - b)) q) eqn:Ht.
  - apply Qle_bool_iff in Ht. by split.
  - assert (Hlt : q < pow2 (a - b)).
    { apply Qnot_le_lt. intros H. apply Qle_bool_iff in H. congruence. }
    replace (a - b - 1 + 1)%Z with (a - b)%Z by lia.
    split; [by apply Qlt_le_weak|done].
Qed.

Lemma ilog2_ge (x : Q) (k : Z) : 0 < x -> pow2 k <= x -> (k <= ilog2 x)%Z.
Proof.
  intros Hx Hk. destruct (ilog2_spec x Hx) as [_ H2].
  destruct (Z.le_gt_cases k (ilog2 x)) as [|Hlt]; [done|].
  assert (pow2 (ilog2 x + 1) <= pow2 k) by (apply pow2_le; lia). lra.
Qed.

Lemma ilog2_lt (x : Q) (k : Z) : 0 < x -> x < pow2 k -> (ilog2 x < k)%Z.
Proof.
  intros Hx Hk. destruct (ilog2_spec x Hx) as [H1 _].
  destruct (Z.lt_ge_cases (ilog2 x) k) as [|Hge]; [done|].
  assert (pow2 k <= pow2 (ilog2 x)) by (by apply pow2_le). lra.
Qed.

Lemma ilog2_mono (x y : Q) : 0 < x -> x <= y -> (ilog2 x <= ilog2 y)%Z.
Proof.
  intros Hx Hxy. apply ilog2_ge; [lra|].
  destruct (ilog2_spec x Hx) as [H1 _]. lra.
Qed.

(** ** Rounding to the nearest integer, ties to even *)

Lemma rne_cases (q : Q) :
  (rne q = Qfloor q /\ q - inject_Z (Qfloor q) <= 1 # 2)
  \/ (rne q = (Qfloor q + 1)%Z /\ (1 # 2) <= q - inject_Z (Qfloor q)).
Proof.
  unfold rne.
  destruct (Qcompare (q - inject_Z (Qfloor q)) (1 # 2)) eqn:Hc.
  - apply Qeq_alt in Hc. destruct (Z.even (Qfloor q)); [left|right]; (split; [done|lra]).
  - apply Qlt_alt in Hc. left. split; [done|lra].
  - apply Qgt_alt in Hc. right. split; [done|lra].
Qed.

Lemma rne_strict (q : Q) :
  (q - inject_Z (Qfloor q) < 1 # 2 -> rne q = Qfloor q)
  /\ ((1 # 2) < q - inject_Z (Qfloor q) -> rne q = (Qfloor q + 1)%Z).
Proof.
  unfold rne. split; intros H;
    destruct (Qcompare (q - inject_Z (Qfloor q)) (1 # 2)) eqn:Hc; try done.
  - apply Qeq_alt in Hc. lra.
  - apply Qgt_alt in Hc. lra.
  - apply Qeq_alt in Hc. lra.
  - apply Qlt_alt in Hc. lra.
Qed.

Lemma floor_bounds (q : Q) :
  inject_Z (Qfloor q) <= q /\ q < inject_Z (Qfloor q) + 1.
Proof.
  split; [apply Qfloor_le|].
  pose proof (Qlt_floor q) as H. by rewrite inject_Z_plus in H.
Qed.

Lemma rne_ge_int (q : Q) (a : Z) : inject_Z a <= q -> (a <= rne q)%Z.
Proof.
  intros H. pose proof (Qfloor_resp_le _ _ H) as Hf. rewrite Qfloor_Z in Hf.
  destruct (rne_cases q) as [[-> _]|[-> _]]; lia.
Qed.

Lemma rne_le_int (q : Q) (b : Z) : q <= inject_Z b -> (rne q <= b)%Z.
Proof.
  intros H. pose proof (Qfloor_resp_le _ _ H) as Hf. rewrite Qfloor_Z in Hf.
  destruct (floor_bounds q) as [F1 F2].
  destruct (Z.eq_dec (Qfloor q) b) as [Heq|Hne].
  - destruct (rne_strict q) as [Hs _]. rewrite Hs; [lia|]. rewrite Heq. lra.
  - destruct (rne_cases q) as [[-> _]|[-> _]]; lia.
Qed.

Lemma rne_proper (q1 q2 : Q) : q1 == q2 -> rne q1 = rne q2.
Proof.
  intros H. unfold rne. rewrite (Qfloor_comp _ _ H).
  assert (E : q1 - inject_Z (Qfloor q2) == q2 - inject_Z (Qfloor q2)) by lra.
  by rewrite (Qcompare_comp _ _ E _ _ (Qeq_refl (1 # 2))).
Qed.

Lemma rne_mono (q1 q2 : Q) : q1 <= q2 -> (rne q1 <= rne q2)%Z.
Proof.
  intros H. pose proof (Qfloor_resp_le _ _ H) as Hf.
  destruct (Z.eq_dec (Qfloor q1) (Qfloor q2)) as [Heq|Hne].
  - destruct (rne_cases q1) as [[E1 _]|[E1 R1]]; [rewrite E1|].
    + rewrite Heq. destruct (rne_cases q2) as [[-> _]|[-> _]]; lia.
    + destruct (Qlt_le_dec (1 # 2) (q2 - inject_Z (Qfloor q2))) as [Hgt|Hle].
      * destruct (rne_strict q2) as [_ Hs]. rewrite Hs by done. lia.
      * assert (Hq : q1 == q2) by (rewrite Heq in *; lra).
        rewrite (rne_proper q1 q2 Hq). lia.
  - destruct (rne_cases q1) as [[-> _]|[-> _]];
      destruct (rne_cases q2) as [[-> _]|[-> _]]; lia.
Qed.

Lemma rne_upper (q : Q) : inject_Z (rne q) <= q + (1 # 2).
Proof.
  destruct (floor_bounds q) as [F1 F2].
  destruct (rne_cases q) as [[-> _]|[-> H]]; [lra|].
  rewrite inject_Z_plus. change (inject_Z 1) with 1. lra.
Qed.

Lemma rne_int (q : Q) (z : Z) : q == inject_Z z -> rne q = z.
Proof.
  intros H. apply Z.le_antisymm.
  - apply rne_le_int. lra.
  - apply rne_ge_int. lra.
Qed.

(** ** Rounding a positive number *)

Lemma scale_cancel (x : Q) (e : Z) : x * pow2 (- e) * pow2 e == x.
Proof. rewrite <- Qmult_assoc, pow2_inv. ring. Qed.

Lemma scale_pow (e k : Z) : pow2 (e + k) * pow2 (- e) == pow2 k.
Proof.
  rewrite <- pow2_plus. by replace (e + k + - e)%Z with k by lia.
Qed.

Lemma scale_lt (x : Q) (e k : Z) :
  x < pow2 (e + k) -> x * pow2 (- e) < pow2 k.
Proof.
  intros H. rewrite <- (scale_pow e k).
  apply Qmult_lt_compat_r; [apply pow2_pos|done].
Qed.

Lemma scale_le (x : Q) (e k : Z) :
  pow2 (e + k) <= x -> pow2 k <= x * pow2 (- e).
Proof.
  intros H. rewrite <- (scale_pow e k).
  apply Qmult_le_compat_r; [done|]. apply Qlt_le_weak, pow2_pos.
Qed.

Lemma expo_emin (x : Q) : (emin <= expo x)%Z.
Proof. apply Z.le_max_l. Qed.

Lemma expo_log (x : Q) : (ilog2 x - 52 <= expo x)%Z.
Proof. apply Z.le_max_r. Qed.

Lemma expo_mono (x y : Q) : 0 < x -> x <= y -> (expo x <= expo y)%Z.
Proof.
  intros Hx Hxy. unfold expo. pose proof (ilog2_mono x y Hx Hxy). lia.
Qed.

Lemma scaled_lt_53 (x : Q) : 0 < x -> x * pow2 (- expo x) < pow2 53.
Proof.
  intros Hx. apply scale_lt. destruct (ilog2_spec x Hx) as [_ H].
  pose proof (expo_log x).
  assert (pow2 (ilog2 x + 1) <= pow2 (expo x + 53)) by (apply pow2_le; lia).
  lra.
Qed.

Lemma scaled_pos (x : Q) (e : Z) : 0 < x -> 0 < x * pow2 (- e).
Proof.
  intros Hx. pose proof (pow2_pos (- e)). by apply Qmult_lt_0_compat.
Qed.

Lemma round_pos_repr (x : Q) :
  0 < x ->
  (0 <= rne (x * pow2 (- expo x)) <= 2 ^ 53)%Z.
Proof.
  intros Hx. split.
  - apply rne_ge_int. apply Qlt_le_weak. by apply scaled_pos.
  - apply rne_le_int. rewrite <- (pow2_int 53) by lia.
    apply Qlt_le_weak. by apply scaled_lt_53.
Qed.

Lemma round_pos_nonneg (x : Q) : 0 < x -> 0 <= round_pos x.
Proof.
  intros Hx. unfold round_pos. destruct (round_pos_repr x Hx) as [H _].
  apply Qmult_le_0_compat; [|apply Qlt_le_weak, pow2_pos].
  change 0 with (inject_Z 0). by rewrite <- Zle_Qle.
Qed.

Lemma round_pos_mono (x y : Q) :
  0 < x -> x <= y -> round_pos x <= round_pos y.
Proof.
  intros Hx Hxy. assert (Hy : 0 < y) by lra.
  pose proof (expo_mono x y Hx Hxy) as He. unfold round_pos.
  destruct (Z.eq_dec (expo x) (expo y)) as [Heq|Hne].
  - rewrite Heq. apply Qmult_le_compat_r; [|apply Qlt_le_weak, pow2_pos].
    rewrite <- Zle_Qle. apply rne_mono.
    apply Qmult_le_compat_r; [done|apply Qlt_le_weak, pow2_pos].
  - assert (Hlt : (expo x < expo y)%Z) by lia.
    assert (Hny : expo y = (ilog2 y - 52)%Z).
    { unfold expo in *. pose proof (expo_emin x). unfold expo in *. lia. }
    (* the larger one is at least 2^(expo y + 52) *)
    assert (Hbig : pow2 (expo y + 52) <= round_pos y).
    { unfold round_pos. rewrite pow2_plus, (Qmult_comm (pow2 (expo y))).
      apply Qmult_le_compat_r; [|apply Qlt_le_weak, pow2_pos].
      rewrite (pow2_int 52) by lia. rewrite <- Zle_Qle. apply rne_ge_int.
      rewrite <- (pow2_int 52) by lia. apply scale_le.
      destruct (ilog2_spec y Hy) as [H _].
      by replace (expo y + 52)%Z with (ilog2 y) by lia. }
    (* the smaller one is at most 2^(expo x + 53) *)
    assert (Hsmall : round_pos x <= pow2 (expo x + 53)).
    { unfold round_pos. rewrite pow2_plus, (Qmult_comm (pow2 (expo x))).
      apply Qmult_le_compat_r; [|apply Qlt_le_weak, pow2_pos].
      rewrite (pow2_int 53) by lia. rewrite <- Zle_Qle.
      by apply round_pos_repr. }
    assert (pow2 (expo x + 53) <= pow2 (expo y + 52)) by (apply pow2_le; lia).
    unfold round_pos in *. lra.
Qed.

Lemma round_pos_upper (x : Q) :
  round_pos x <= x + pow2 (expo x) * (1 # 2).
Proof.
  unfold round_pos.
  pose proof (rne_upper (x * pow2 (- expo x))) as H.
  pose proof (pow2_pos (expo x)) as Hp.
  assert (H1 : inject_Z (rne (x * pow2 (- expo x))) * pow2 (expo x)
               <= (x * pow2 (- expo x) + (1 # 2)) * pow2 (expo x))
    by (apply Qmult_le_compat_r; [done|by apply Qlt_le_weak]).
  assert (E : (x * pow2 (- expo x) + (1 # 2)) * pow2 (expo x)
              == x + pow2 (expo x) * (1 # 2)).
  { rewrite Qmult_plus_distr_l, scale_cancel. ring. }
  by rewrite E in H1.
Qed.

(** A number [M * 2^e] with [0 < M <= 2^53] and [e] at least [emin] is a
    value of the format: rounding returns it. *)
Lemma round_pos_fix (x : Q) (M e : Z) :
  (0 < M <= 2 ^ 53)%Z -> (emin <= e)%Z -> x == inject_Z M * pow2 e ->
  round_pos x == x.
Proof.
  intros [HM1 HM2] He Hx.
  assert (Hpos : 0 < x).
  { rewrite Hx. apply Qmult_lt_0_compat; [|apply pow2_pos].
    change 0 with (inject_Z 0). by rewrite <- Zlt_Qlt. }
  (* the scaled value is an integer *)
  assert (HK : exists K, x * pow2 (- expo x) == inject_Z K).
  { destruct (Z.eq_dec M (2 ^ 53)) as [->|HMne].
    - assert (Hx' : x == pow2 (e + 53)).
      { rewrite Hx. rewrite pow2_plus. rewrite <- (pow2_int 53) by lia. ring. }
      assert (Hl : ilog2 x = (e + 53)%Z).
      { apply Z.le_antisymm.
        - assert (ilog2 x < e + 54)%Z; [|lia].
          apply ilog2_lt; [done|]. rewrite Hx'. apply pow2_lt. lia.
        - apply ilog2_ge; [done|]. rewrite Hx'. apply Qle_refl. }
      assert (Hex : expo x = (e + 1)%Z) by (unfold expo, emin in *; lia).
      exists (2 ^ 52)%Z. rewrite Hex. rewrite Hx'. rewrite <- (pow2_int 52) by lia.
      rewrite <- pow2_plus. by replace (e + 53 + - (e + 1))%Z with 52%Z by lia.
    - assert (Hlt : x < pow2 (e + 53)).
      { rewrite Hx, pow2_plus, (Qmult_comm (pow2 e)).
        apply Qmult_lt_compat_r; [apply pow2_pos|].
        rewrite pow2_int by lia. rewrite <- Zlt_Qlt. lia. }
      pose proof (ilog2_lt x (e + 53) Hpos Hlt) as Hl.
      assert (Hex : (expo x <= e)%Z) by (unfold expo; lia).
      exists (M * 2 ^ (e - expo x))%Z.
      rewrite inject_Z_mult, <- pow2_int by lia.
      set (ex := expo x) in *.
      rewrite Hx, <- Qmult_assoc, <- pow2_plus.
      by replace (e + - ex)%Z with (e - ex)%Z by lia. }
  destruct HK as [K HK]. unfold round_pos.
  rewrite (rne_int _ K HK), <- HK. apply scale_cancel.
Qed.

(** ** Rounding *)

Lemma fl_proper (x y : Q) : x == y -> fl x = fl y.
Proof. intros H. unfold fl. by rewrite (Qred_complete x y H). Qed.

Lemma fl_zero (x : Q) : x == 0 -> fl x = 0.
Proof. intros H. by rewrite (fl_proper x 0 H). Qed.

Lemma fl_pos (x : Q) : 0 < x -> fl x == round_pos (Qred x).
Proof.
  intros H. unfold fl.
  assert (Hc : Qcompare (Qred x) 0 = Gt).
  { apply Qgt_alt. by rewrite Qred_correct. }
  rewrite Hc. apply Qred_correct.
Qed.

Lemma fl_neg (x : Q) : x < 0 -> fl x == - round_pos (- Qred x).
Proof.
  intros H. unfold fl.
  assert (Hc : Qcompare (Qred x) 0 = Lt).
  { apply Qlt_alt. by rewrite Qred_correct. }
  rewrite Hc. by rewrite Qred_correct.
Qed.

Lemma fl_nonneg (x : Q) : 0 <= x -> 0 <= fl x.
Proof.
  intros H. destruct (Qle_lt_or_eq _ _ H) as [Hlt|Heq].
  - rewrite (fl_pos x Hlt). apply round_pos_nonneg. by rewrite Qred_correct.
  - rewrite (fl_zero x); [apply Qle_refl|by symmetry].
Qed.

Lemma fl_nonpos (x : Q) : x <= 0 -> fl x <= 0.
Proof.
  intros H. destruct (Qle_lt_or_eq _ _ H) as [Hlt|Heq].
  - rewrite (fl_neg x Hlt).
    assert (0 <= round_pos (- Qred x)); [|lra].
    apply round_pos_nonneg. rewrite Qred_correct. lra.
  - rewrite (fl_zero x); [apply Qle_refl|done].
Qed.

(** Rounding is monotone. *)
Lemma fl_mono (x y : Q) : x <= y -> fl x <= fl y.
Proof.
  intros H.
  destruct (Qlt_le_dec 0 x) as [Hx|Hx].
  - assert (Hy : 0 < y) by lra.
    rewrite (fl_pos x Hx), (fl_pos y Hy).
    apply round_pos_mono; rewrite !Qred_correct; done.
  - destruct (Qlt_le_dec y 0) as [Hy|Hy].
    + assert (Hx' : x < 0) by lra.
      rewrite (fl_neg x Hx'), (fl_neg y Hy).
      assert (round_pos (- Qred y) <= round_pos (- Qred x)); [|lra].
      apply round_pos_mono; rewrite !Qred_correct; lra.
    + pose proof (fl_nonpos x Hx). pose proof (fl_nonneg y Hy). lra.
Qed.

(** Rounding is odd. *)
Lemma fl_opp (x : Q) : fl (- x) == - fl x.
Proof.
  destruct (Q_dec x 0) as [[Hlt|Hgt]|Heq].
  - assert (H : 0 < - x) by lra.
    rewrite (fl_pos _ H), (fl_neg x Hlt), Qred_opp. ring.
  - assert (H : - x < 0) by lra.
    rewrite (fl_neg _ H), (fl_pos x Hgt), Qred_opp.
    assert (E : - - Qred x = Qred x)
      by (destruct (Qred x); unfold Qopp; simpl; by rewrite Z.opp_involutive).
    rewrite E. reflexivity.
  - rewrite (fl_zero x Heq), (fl_zero (- x)); [reflexivity|lra].
Qed.


Lemma round_pos_representable (x : Q) :
  0 < x -> representable (round_pos x).
Proof.
  intros Hx. exists (rne (x * pow2 (- expo x))), (expo x).
  destruct (round_pos_repr x Hx) as [H1 H2].
  split; [lia|]. split; [apply expo_emin|reflexivity].
Qed.

Lemma representable_opp (y : Q) : representable y -> representable (- y).
Proof.
  intros (M & e & HM & He & Hy). exists (- M)%Z, e.
  split; [lia|]. split; [done|]. rewrite Hy, inject_Z_opp. ring.
Qed.

Lemma representable_double (y : Q) : representable y -> representable (y * 2).
Proof.
  intros (M & e & HM & He & Hy). exists M, (e + 1)%Z.
  split; [done|]. split; [lia|]. rewrite Hy, pow2_plus.
  change (pow2 1) with 2. ring.
Qed.

(** The result of a rounding is a value of the format. *)
Lemma fl_representable (x : Q) : representable (fl x).
Proof.
  destruct (Q_dec x 0) as [[Hlt|Hgt]|Heq].
  - assert (H : 0 < - Qred x) by (rewrite Qred_correct; lra).
    destruct (representable_opp _ (round_pos_representable _ H))
      as (M & e & HM & He & Hy).
    exists M, e. split; [done|]. split; [done|]. by rewrite (fl_neg x Hlt).
  - assert (H : 0 < Qred x) by (by rewrite Qred_correct).
    destruct (round_pos_representable _ H) as (M & e & HM & He & Hy).
    exists M, e. split; [done|]. split; [done|]. by rewrite (fl_pos x Hgt).
  - exists 0%Z, 0%Z. split; [done|]. split; [done|].
    rewrite (fl_zero x Heq). reflexivity.
Qed.

(** Rounding a value of the format returns it. *)
Lemma fl_fix (y : Q) : representable y -> fl y == y.
Proof.
  intros (M & e & HM & He & Hy).
  destruct (Z.lt_trichotomy M 0) as [Hneg|[Hz|Hp]].
  - assert (Hlt : y < 0).
    { rewrite Hy. assert (inject_Z M < 0)
        by (change 0 with (inject_Z 0); rewrite <- Zlt_Qlt; done).
      pose proof (pow2_pos e). nra. }
    rewrite (fl_neg y Hlt).
    rewrite (round_pos_fix (- Qred y) (- M) e); [rewrite Qred_correct; ring|lia|done|].
    rewrite Qred_correct, Hy, inject_Z_opp. ring.
  - subst M. apply Qeq_trans with 0; [|rewrite Hy; ring].
    rewrite (fl_zero y); [reflexivity|]. rewrite Hy. ring.
  - assert (Hgt : 0 < y).
    { rewrite Hy. assert (0 < inject_Z M)
        by (change 0 with (inject_Z 0); rewrite <- Zlt_Qlt; done).
      pose proof (pow2_pos e). nra. }
    rewrite (fl_pos y Hgt).
    rewrite (round_pos_fix (Qred y) M e); [apply Qred_correct|lia|done|].
    by rewrite Qred_correct.
Qed.

Lemma fl_idem (x : Q) : fl (fl x) == fl x.
Proof. apply fl_fix, fl_representable. Qed.

(** Doubling a value of the format is exact. *)
Lemma fl_double (x : Q) : fl (fl x * 2) == fl x * 2.
Proof. apply fl_fix, representable_double, fl_representable. Qed.

(** The relative error of a rounding in the normal range is at most
    [2^-53]. *)
Lemma fl_upper (x : Q) :
  pow2 (-1022) <= x -> fl x <= x * (1 + pow2 (-53)).
Proof.
  intros Hx. pose proof (pow2_pos (-1022)) as Hp.
  assert (Hpos : 0 < x) by lra.
  rewrite (fl_pos x Hpos).
  assert (HX : Qred x == x) by apply Qred_correct.
  assert (HXpos : 0 < Qred x) by (by rewrite HX).
  pose proof (round_pos_upper (Qred x)) as Hup.
  assert (Hl : (-1022 <= ilog2 (Qred x))%Z)
    by (apply ilog2_ge; [done|by rewrite HX]).
  assert (He : expo (Qred x) = (ilog2 (Qred x) - 52)%Z)
    by (unfold expo, emin; lia).
  destruct (ilog2_spec (Qred x) HXpos) as [Hlo _].
  assert (E : pow2 (expo (Qred x)) * (1 # 2)
              == pow2 (ilog2 (Qred x)) * pow2 (-53)).
  { rewrite He. replace (ilog2 (Qred x) - 52)%Z with (ilog2 (Qred x) + -52)%Z by lia.
    rewrite pow2_plus. change (pow2 (-53)) with (pow2 (-52) * (1 # 2)). ring. }
  rewrite E in Hup. pose proof (pow2_pos (-53)) as Hp53.
  assert (pow2 (ilog2 (Qred x)) * pow2 (-53) <= Qred x * pow2 (-53))
    by (apply Qmult_le_compat_r; [done|by apply Qlt_le_weak]).
  assert (Qred x * pow2 (-53) == x * pow2 (-53)) by (by rewrite HX).
  lra.
Qed.

(** A product [u * c] with [u] at most the largest value below 1 rounds
    strictly below [c]. *)
Lemma fl_below (u c : Q) :
  0 <= u <= 1 - pow2 (-53) -> pow2 (-1022) < c -> fl (u * c) < c.
Proof.
  intros [Hu0 Hu1] Hc. pose proof (pow2_pos (-1022)) as Hp.
  pose proof (pow2_pos (-53)) as Hp53.
  assert (Hx : u * c <= c * (1 - pow2 (-53))) by nra.
  destruct (Qlt_le_dec (u * c) (pow2 (-1022))) as [Hsmall|Hbig].
  - apply Qle_lt_trans with (fl (pow2 (-1022))); [apply fl_mono; lra|].
    rewrite fl_fix; [done|]. exists 1%Z, (-1022)%Z.
    split; [done|]. split; [done|]. ring.
  - apply Qle_lt_trans with (u * c * (1 + pow2 (-53))); [by apply fl_upper|].
    assert (Hc0 : 0 < c) by lra. clear Hbig Hc Hp Hu0 Hu1.
    revert Hp53 Hx. generalize (pow2 (-53)) (u * c). intros d x Hd Hx.
    assert (H1 : x * (1 + d) <= c * (1 - d) * (1 + d))
      by (apply Qmult_le_compat_r; lra).
    assert (H2 : 0 < c * (d * d))
      by (apply Qmult_lt_0_compat; [done|by apply Qmult_lt_0_compat]).
    assert (E : c * (1 - d) * (1 + d) == c - c * (d * d)) by ring.
    lra.
Qed.

(** Rounding keeps a number on its side of a value of the format. *)
Lemma fl_le (x c : Q) : fl c == c -> x <= c -> fl x <= c.
Proof. intros Hc H. rewrite <- Hc. by apply fl_mono. Qed.

Lemma fl_ge (x c : Q) : fl c == c -> c <= x -> c <= fl x.
Proof. intros Hc H. rewrite <- Hc. by apply fl_mono. Qed.

Lemma fl_lt_inv (x c : Q) : fl c == c -> fl x < c -> x < c.
Proof.
  intros Hc H. apply Qnot_le_lt. intros Hle.
  pose proof (fl_ge x c Hc Hle). lra.
Qed.

Lemma fl_gt_inv (x c : Q) : fl c == c -> c < fl x -> c < x.
Proof.
  intros Hc H. apply Qnot_le_lt. intros Hle.
  pose proof (fl_le x c Hc Hle). lra.
Qed.

(** ** Arrays *)

Lemma indexOf_found (l : list Ref) (x : Ref) :
  x ∈ l ->
  exists l1 l2, l = l1 ++ x :: l2 /\ (x ∉ l1) /\ indexOf l x = Z.of_nat (length l1).
Proof.
  induction l as [|y t IH]; intros Hin.
  - inversion Hin.
  - simpl. destruct (Nat.eqb_spec y x) as [->|Hne].
    + exists [], t. split; [done|]. split; [apply not_elem_of_nil|done].
    + apply elem_of_cons in Hin as [Heq|Hin]; [congruence|].
      destruct (IH Hin) as (l1 & l2 & -> & Hni & Hidx).
      exists (y :: l1), l2. split; [done|]. split.
      * rewrite elem_of_cons. intros [?|?]; [congruence|done].
      * rewrite Hidx. simpl length.
        destruct (Z.ltb_spec (Z.of_nat (length l1)) 0); lia.
Qed.

Lemma indexOf_absent (l : list Ref) (x : Ref) :
  x ∉ l -> indexOf l x = (-1)%Z.
Proof.
  induction l as [|y t IH]; intros Hni; [done|].
  simpl. rewrite not_elem_of_cons in Hni. destruct Hni as [Hne Hni].
  destruct (Nat.eqb_spec y x); [congruence|].
  rewrite (IH Hni). done.
Qed.

Lemma delete_middle (l1 l2 : list Ref) (x : Ref) :
  delete (length l1) (l1 ++ x :: l2) = l1 ++ l2.
Proof. induction l1 as [|a l1 IH]; [done|]. simpl. f_equal. exact IH. Qed.

Lemma splice1_at (l1 l2 : list Ref) (x : Ref) :
  splice1 (l1 ++ x :: l2) (Z.of_nat (length l1)) = l1 ++ l2.
Proof.
  unfold splice1.
  destruct (Z.ltb_spec (Z.of_nat (length l1)) 0) as [?|_]; [lia|].
  rewrite length_app. simpl length.
  replace (Z.to_nat _) with (length l1) by lia.
  apply delete_middle.
Qed.

Lemma filter_all (P : Ref -> Prop) `{forall r, Decision (P r)} (l : list Ref) :
  Forall P l -> filter P l = l.
Proof.
  induction 1 as [|x l Hx _ IH]; [done|].
  rewrite filter_cons_True by done. by rewrite IH.
Qed.

(** Removing a present element of a duplicate-free array by
    [indexOf]/[splice] is filtering it out. *)
Lemma splice1_indexOf (l : list Ref) (x : Ref) :
  NoDup l -> x ∈ l ->
  splice1 l (indexOf l x) = filter (fun r => r <> x) l.
Proof.
  intros Hnd Hin.
  destruct (indexOf_found l x Hin) as (l1 & l2 & -> & Hni & ->).
  rewrite splice1_at.
  apply NoDup_app in Hnd as (_ & Hd & Hnd2).
  apply NoDup_cons in Hnd2 as [Hni2 _].
  rewrite filter_app, filter_cons_False by (intros H; by apply H).
  f_equal; symmetry; apply filter_all, Forall_forall; congruence.
Qed.

(** When the element is absent, [splice(-1, 1)] removes the last element. *)
Lemma splice1_absent (l : list Ref) (y x : Ref) :
  x ∉ l ++ [y] -> splice1 (l ++ [y]) (indexOf (l ++ [y]) x) = l.
Proof.
  intros Hni. rewrite (indexOf_absent _ _ Hni). unfold splice1.
  rewrite length_app. simpl.
  replace (Z.to_nat _) with (length l) by lia.
  rewrite delete_middle. apply app_nil_r.
Qed.

(** ** The per-element table *)

Lemma get_put (tbl : ByElement) (k k' : Element) (l : list Ref) :
  get (put tbl k l) k' = if decide (k' = k) then l else get tbl k'.
Proof. destruct k, k'; reflexivity. Qed.

(** ** The partition invariant, in the form the proofs use *)

Lemma partition_member (s : Store) (k : Element) (r : Ref) :
  partition s -> r ∈ members s k <-> kindOf s r = Some k.
Proof.
  intros P. unfold kindOf. split.
  - intros Hin.
    assert (Hlt : (r < length (entities s))%nat) by (apply (part_cover s P); eauto).
    destruct (lookup_lt_is_Some_2 _ _ Hlt) as [e He]. rewrite He. simpl.
    f_equal. eapply (part_disjoint s P); [|exact Hin].
    by apply (part_kind s P).
  - destruct (entities s !! r) as [e|] eqn:He; [|done].
    simpl. intros [= <-]. by apply (part_kind s P).
Qed.

Lemma partition_intro (s : Store) :
  (forall k, NoDup (members s k)) ->
  (forall k r, r ∈ members s k <-> kindOf s r = Some k) ->
  partition s.
Proof.
  intros Hnd Hm. split; [done|..].
  - intros k1 k2 r H1%Hm H2%Hm. congruence.
  - intros r. split.
    + intros [k Hk%Hm]. unfold kindOf in Hk.
      destruct (entities s !! r) eqn:He; [|done].
      apply lookup_lt_is_Some. eauto.
    + intros [e He]%lookup_lt_is_Some. exists (element e).
      apply Hm. unfold kindOf. by rewrite He.
  - intros r e He. apply Hm. unfold kindOf. by rewrite He.
Qed.

Lemma partition_check_sound (s : Store) :
  partition_check s = true -> partition s.
Proof.
  unfold partition_check. intros H%bool_decide_eq_true. destruct H as [Hk Hall].
  assert (Hk' : forall k, NoDup (members s k)
                          /\ Forall (fun r => kindOf s r = Some k) (members s k)).
  { intros k. rewrite Forall_forall in Hk. apply Hk. destruct k; repeat constructor. }
  apply partition_intro; [intros k; apply Hk'|].
  intros k r. split.
  - intros Hin. destruct (Hk' k) as [_ Hf]. rewrite Forall_forall in Hf. auto.
  - intros Hr. unfold kindOf in Hr.
    destruct (entities s !! r) as [e|] eqn:He; [|done].
    assert (Hlt : (r < length (entities s))%nat) by (apply lookup_lt_is_Some; eauto).
    rewrite Forall_forall in Hall.
    specialize (Hall r). rewrite elem_of_seq in Hall.
    specialize (Hall ltac:(lia)).
    assert (Hin : exists k', r ∈ members s k').
    { rewrite !elem_of_app in Hall. destruct Hall as [?|[?|?]]; eauto. }
    destruct Hin as [k' Hin]. destruct (Hk' k') as [_ Hf].
    rewrite Forall_forall in Hf. specialize (Hf _ Hin).
    unfold kindOf in Hf. rewrite He in Hf. simpl in *. congruence.
Qed.

(** The invariant does not look at the random stream. *)
Lemma partition_ext (s1 s2 : Store) :
  entities s1 = entities s2 -> entityByElement s1 = entityByElement s2 ->
  partition s1 -> partition s2.
Proof.
  intros He Ht [H1 H2 H3 H4].
  split; unfold members in *; rewrite <- ?He, <- ?Ht; done.
Qed.

Lemma partition_initial : partition initial.
Proof. apply partition_check_sound. vm_compute. reflexivity. Qed.

(** The sizes of the three arrays add up to the size of the canonical one. *)
Lemma partition_count (s : Store) :
  partition s ->
  (countOf s rock + countOf s paper + countOf s scissors
   = length (entities s))%nat.
Proof.
  intros P. unfold countOf. fold (members s rock) (members s paper) (members s scissors).
  transitivity (length (seq 0 (length (entities s)))); [|apply length_seq].
  rewrite <- !length_app.
  apply Permutation_length, NoDup_Permutation.
  - rewrite <- app_assoc.
    apply NoDup_app. split; [apply (part_nodup s P)|]. split.
    + intros r H1 [H2|H2]%elem_of_app;
        by specialize (part_disjoint s P _ _ _ H1 H2).
    + apply NoDup_app. split; [apply (part_nodup s P)|].
      split; [|apply (part_nodup s P)].
      intros r H1 H2. by specialize (part_disjoint s P _ _ _ H1 H2).
  - apply NoDup_seq.
  - intros r. rewrite elem_of_seq, !elem_of_app.
    pose proof (part_cover s P r) as [Hc1 Hc2]. split.
    + intros [[?|?]|?]; (split; [lia|]); simpl; apply Hc1; eauto.
    + intros [_ Hlt]. destruct (Hc2 Hlt) as [[] ?]; auto.
Qed.

(** ** [changeEntityElement] *)

Lemma change_entities (s : Store) (i : Ref) (k : Element) :
  entities (changeEntityElement s i k)
  = match entities s !! i with
    | Some e => <[i := setElement e k]> (entities s)
    | None => entities s
    end.
Proof. unfold changeEntityElement. by destruct (entities s !! i). Qed.

Lemma change_length (s : Store) (i : Ref) (k : Element) :
  length (entities (changeEntityElement s i k)) = length (entities s).
Proof.
  rewrite change_entities. destruct (entities s !! i); [|done].
  apply length_insert.
Qed.

Lemma change_randomCalls (s : Store) (i : Ref) (k : Element) :
  randomCalls (changeEntityElement s i k) = randomCalls s.
Proof. unfold changeEntityElement. by destruct (entities s !! i). Qed.

Lemma change_lookup (s : Store) (i r : Ref) (k : Element) :
  entities (changeEntityElement s i k) !! r
  = if decide (r = i) then (fun e => setElement e k) <$> entities s !! i
    else entities s !! r.
Proof.
  rewrite change_entities. destruct (entities s !! i) as [e|] eqn:He.
  - destruct (decide (r = i)) as [->|Hne].
    + simpl. apply list_lookup_insert_eq, lookup_lt_is_Some. eauto.
    + by apply list_lookup_insert_ne.
  - destruct (decide (r = i)) as [->|Hne]; by rewrite ?He.
Qed.

Lemma change_kindOf (s : Store) (i r : Ref) (k : Element) :
  (i < length (entities s))%nat ->
  kindOf (changeEntityElement s i k) r
  = if decide (r = i) then Some k else kindOf s r.
Proof.
  intros [e He]%lookup_lt_is_Some. unfold kindOf. rewrite change_lookup.
  destruct (decide (r = i)); [|done]. by rewrite He.
Qed.

(** Under the invariant the entity is found in the array of its element, and
    the arrays after the call are the old ones without the entity, with the
    entity pushed on the array of the new element. *)
Lemma change_members (s : Store) (i : Ref) (k k' : Element) :
  partition s -> (i < length (entities s))%nat ->
  members (changeEntityElement s i k) k'
  = filter (fun r => r <> i) (members s k')
    ++ (if decide (k' = k) then [i] else []).
Proof.
  intros P [e He]%lookup_lt_is_Some.
  unfold members, changeEntityElement. rewrite He. simpl.
  assert (Hin : i ∈ get (entityByElement s) (element e))
    by (by apply (part_kind s P)).
  assert (H1 : forall k0,
    get (put (entityByElement s) (element e)
             (splice1 (get (entityByElement s) (element e))
                      (indexOf (get (entityByElement s) (element e)) i))) k0
    = filter (fun r => r <> i) (get (entityByElement s) k0)).
  { intros k0. rewrite get_put. destruct (decide (k0 = element e)) as [->|Hne].
    - apply splice1_indexOf; [apply (part_nodup s P)|done].
    - symmetry. apply filter_all, Forall_forall. intros r Hr ->.
      apply Hne. by eapply (part_disjoint s P). }
  rewrite get_put, !H1.
  destruct (decide (k' = k)) as [->|Hne]; [done|]. by rewrite app_nil_r.
Qed.

Lemma change_partition (s : Store) (i : Ref) (k : Element) :
  partition s -> (i < length (entities s))%nat ->
  partition (changeEntityElement s i k).
Proof.
  intros P Hlt. apply partition_intro.
  - intros k'. rewrite change_members by done.
    apply NoDup_app. split; [apply NoDup_filter, (part_nodup s P)|].
    split; [|destruct (decide (k' = k)); [apply NoDup_singleton|apply NoDup_nil_2]].
    intros r [Hr _]%list_elem_of_filter Hin.
    destruct (decide (k' = k)); [|by apply not_elem_of_nil in Hin].
    by apply list_elem_of_singleton in Hin.
  - intros k' r. rewrite change_members, change_kindOf by done.
    rewrite elem_of_app, list_elem_of_filter, (partition_member s k' r P).
    destruct (decide (r = i)) as [->|Hne].
    + split.
      * intros [[? _]|Hin]; [done|].
        destruct (decide (k' = k)) as [->|]; [done|by apply not_elem_of_nil in Hin].
      * intros [= ->]. right. rewrite decide_True by done.
        by apply list_elem_of_singleton.
    + split; [|by auto].
      intros [[_ ?]|Hin]; [done|].
      destruct (decide (k' = k)); [|by apply not_elem_of_nil in Hin].
      by apply list_elem_of_singleton in Hin.
Qed.

(** ** [updateEntity] on the store *)

Lemma move_lookup (s : Store) (i r : Ref) :
  entities (updateEntityAt s i) !! r
  = if decide (r = i) then updateEntity <$> entities s !! i
    else entities s !! r.
Proof.
  unfold updateEntityAt. destruct (entities s !! i) as [e|] eqn:He; simpl.
  - destruct (decide (r = i)) as [->|Hne].
    + apply list_lookup_insert_eq, lookup_lt_is_Some. eauto.
    + by apply list_lookup_insert_ne.
  - destruct (decide (r = i)) as [->|Hne]; by rewrite ?He.
Qed.

Lemma move_length (s : Store) (i : Ref) :
  length (entities (updateEntityAt s i)) = length (entities s).
Proof.
  unfold updateEntityAt. destruct (entities s !! i); [|done].
  apply length_insert.
Qed.

Lemma move_table (s : Store) (i : Ref) :
  entityByElement (updateEntityAt s i) = entityByElement s.
Proof. unfold updateEntityAt. by destruct (entities s !! i). Qed.

Lemma move_randomCalls (s : Store) (i : Ref) :
  randomCalls (updateEntityAt s i) = randomCalls s.
Proof. unfold updateEntityAt. by destruct (entities s !! i). Qed.

Lemma move_kindOf (s : Store) (i r : Ref) :
  kindOf (updateEntityAt s i) r = kindOf s r.
Proof.
  unfold kindOf. rewrite move_lookup.
  destruct (decide (r = i)) as [->|]; [|done]. by destruct (entities s !! i).
Qed.

Lemma move_partition (s : Store) (i : Ref) :
  partition s -> partition (updateEntityAt s i).
Proof.
  intros P. apply partition_intro; unfold members; rewrite move_table.
  - apply (part_nodup s P).
  - intros k r. rewrite move_kindOf. by apply partition_member.
Qed.

(** ** Comparisons *)

Lemma Qltb_spec (a b : Q) : Qltb a b = true <-> a < b.
Proof.
  unfold Qltb. rewrite negb_true_iff, <- not_true_iff_false, Qle_bool_iff.
  split; [apply Qnot_le_lt|apply Qlt_not_le].
Qed.

(** The test of [checkCollision] compares the computed distance with
    [ENTITY_SIZE * 2]. *)
Lemma collides_spec (e o : Entity) :
  collides e o = true <-> distance e o < ENTITY_SIZE * 2.
Proof. unfold collides. apply Qltb_spec. Qed.

(** ** [checkCollision] *)

(** The scan either finds nobody in range and leaves the store alone, or
    stops at the first enemy in range and converts the entity to the element
    of that enemy. *)
Lemma scan_cases (s : Store) (i : Ref) (e : Entity) (l : list Ref) :
  (Forall (fun r => forall en, entities s !! r = Some en -> collides e en = false) l
   /\ scanEnemies s i e l = s)
  \/ (exists l1 r l2 en,
        l = l1 ++ r :: l2
        /\ Forall (fun r' => forall en', entities s !! r' = Some en' ->
                                         collides e en' = false) l1
        /\ entities s !! r = Some en /\ collides e en = true
        /\ scanEnemies s i e l = changeEntityElement s i (element en)).
Proof.
  induction l as [|r rest IH]; simpl.
  - left. by split.
  - destruct (entities s !! r) as [en|] eqn:Hr.
    + destruct (collides e en) eqn:Hc.
      * right. exists [], r, rest, en. by repeat split.
      * destruct IH as [[Hall Heq]|(l1 & r' & l2 & en' & -> & Hall & ? & ? & Heq)].
        -- left. split; [|done]. constructor; [|done].
           intros en0 ?. congruence.
        -- right. exists (r :: l1), r', l2, en'. repeat split; try done.
           constructor; [|done]. intros en0 ?. congruence.
    + destruct IH as [[Hall Heq]|(l1 & r' & l2 & en' & -> & Hall & ? & ? & Heq)].
      * left. split; [|done]. constructor; [|done]. intros en0 ?. congruence.
      * right. exists (r :: l1), r', l2, en'. repeat split; try done.
        constructor; [|done]. intros en0 ?. congruence.
Qed.

Lemma resolve_shape (s : Store) (i : Ref) :
  checkCollision s i = s
  \/ exists k, checkCollision s i = changeEntityElement s i k.
Proof.
  unfold checkCollision. destruct (entities s !! i) as [e|]; [|by left].
  destruct (scan_cases s i e (get (entityByElement s) (enemyOf (element e))))
    as [[_ ->]|(_ & _ & _ & en & _ & _ & _ & _ & ->)]; eauto.
Qed.

(** The resolver under the invariant, in terms of references. *)
Lemma resolve_cases (s : Store) (i : Ref) (a : Element) :
  partition s -> kindOf s i = Some a ->
  ((forall r, r ∈ members s (enemyOf a) -> ~ inRange s i r)
   /\ checkCollision s i = s)
  \/ (exists l1 r l2,
        members s (enemyOf a) = l1 ++ r :: l2
        /\ (forall r', r' ∈ l1 -> ~ inRange s i r')
        /\ inRange s i r
        /\ checkCollision s i = changeEntityElement s i (enemyOf a)).
Proof.
  intros P Hk. unfold kindOf in Hk. unfold checkCollision.
  destruct (entities s !! i) as [e|] eqn:He; [|done].
  simpl in Hk. injection Hk as <-.
  assert (Hmiss : forall l r,
    Forall (fun r => forall en, entities s !! r = Some en -> collides e en = false) l ->
    r ∈ l -> ~ inRange s i r).
  { intros l r Hall Hr (e' & o & He' & Ho & Hc%collides_spec).
    rewrite Forall_forall in Hall. specialize (Hall r Hr o Ho). congruence. }
  destruct (scan_cases s i e (get (entityByElement s) (enemyOf (element e))))
    as [[Hall ->]|(l1 & r & l2 & en & Hl & Hall & Hr & Hc & ->)].
  - left. split; [|done]. intros r. by apply (Hmiss _ r Hall).
  - right. exists l1, r, l2. split; [done|].
    split; [intros r'; by apply (Hmiss _ r' Hall)|].
    split; [exists e, en; by rewrite <- collides_spec|].
    f_equal.
    assert (Hin : r ∈ members s (enemyOf (element e)))
      by (unfold members; rewrite Hl, elem_of_app, elem_of_cons; auto).
    apply (partition_member s _ _ P) in Hin. unfold kindOf in Hin.
    rewrite Hr in Hin. simpl in Hin. congruence.
Qed.

Lemma resolve_length (s : Store) (i : Ref) :
  length (entities (checkCollision s i)) = length (entities s).
Proof.
  destruct (resolve_shape s i) as [->|[k ->]]; [done|]. apply change_length.
Qed.

Lemma resolve_randomCalls (s : Store) (i : Ref) :
  randomCalls (checkCollision s i) = randomCalls s.
Proof.
  destruct (resolve_shape s i) as [->|[k ->]]; [done|].
  apply change_randomCalls.
Qed.

Lemma resolve_partition (s : Store) (i : Ref) :
  partition s -> partition (checkCollision s i).
Proof.
  intros P. destruct (resolve_shape s i) as [->|[k Hk]]; [done|].
  destruct (decide (i < length (entities s))%nat) as [Hlt|Hge].
  - rewrite Hk. by apply change_partition.
  - unfold checkCollision. rewrite lookup_ge_None_2 by lia. done.
Qed.

(** ** [update] *)

Lemma updateOne_length (s : Store) (i : Ref) :
  length (entities (updateOne s i)) = length (entities s).
Proof. unfold updateOne. by rewrite resolve_length, move_length. Qed.

Lemma updateOne_partition (s : Store) (i : Ref) :
  partition s -> partition (updateOne s i).
Proof. intros P. by apply resolve_partition, move_partition. Qed.

Lemma updateOne_randomCalls (s : Store) (i : Ref) :
  randomCalls (updateOne s i) = randomCalls s.
Proof. unfold updateOne. by rewrite resolve_randomCalls, move_randomCalls. Qed.

(** An induction principle for the loop of [update]. *)
Lemma foldl_updateOne_ind (I : Store -> Prop) (l : list Ref) (s : Store) :
  (forall s i, I s -> I (updateOne s i)) -> I s -> I (foldl updateOne s l).
Proof.
  intros Hstep. revert s. induction l as [|i l IH]; intros s Hs; [done|].
  simpl. by apply IH, Hstep.
Qed.

Lemma update_length (s : Store) :
  length (entities (update s)) = length (entities s).
Proof.
  unfold update.
  apply (foldl_updateOne_ind
           (fun s' => length (entities s') = length (entities s))); [|done].
  intros s' i <-. apply updateOne_length.
Qed.

Lemma update_partition (s : Store) : partition s -> partition (update s).
Proof.
  intros P. unfold update. apply foldl_updateOne_ind; [|done].
  intros s' i. apply updateOne_partition.
Qed.

Lemma update_randomCalls (s : Store) :
  randomCalls (update s) = randomCalls s.
Proof.
  unfold update.
  apply (foldl_updateOne_ind (fun s' => randomCalls s' = randomCalls s)); [|done].
  intros s' i <-. apply updateOne_randomCalls.
Qed.

(** ** [createEntity] and [generateEntities] *)

Section SpawnerFacts.
Variable random : nat -> Q.
Variables cos sin : Q -> Q.
Variable PI : Q.

Lemma create_entities (s : Store) (p : Vec2) (d : Q) (k : Element) :
  entities (createEntity random cos sin s p d k)
  = entities s
    ++ [mkEntity p
          (fmul (cos d) (spawnSpeed (random (randomCalls s))),
           fmul (sin d) (spawnSpeed (random (randomCalls s))))
          k].
Proof. reflexivity. Qed.

Lemma create_length (s : Store) (p : Vec2) (d : Q) (k : Element) :
  length (entities (createEntity random cos sin s p d k))
  = S (length (entities s)).
Proof. rewrite create_entities, length_app. simpl. lia. Qed.

Lemma create_members (s : Store) (p : Vec2) (d : Q) (k k' : Element) :
  members (createEntity random cos sin s p d k) k'
  = members s k' ++ (if decide (k' = k) then [length (entities s)] else []).
Proof.
  unfold members, createEntity. simpl. rewrite get_put.
  destruct (decide (k' = k)) as [->|]; [done|]. by rewrite app_nil_r.
Qed.

Lemma create_kindOf (s : Store) (p : Vec2) (d : Q) (k : Element) (r : Ref) :
  kindOf (createEntity random cos sin s p d k) r
  = if decide (r = length (entities s)) then Some k else kindOf s r.
Proof.
  unfold kindOf. rewrite create_entities.
  destruct (decide (r = length (entities s))) as [->|Hne].
  - by rewrite list_lookup_middle.
  - destruct (decide (r < length (entities s))%nat).
    + by rewrite lookup_app_l.
    + rewrite !lookup_ge_None_2; [done|lia|rewrite length_app; simpl; lia].
Qed.

Lemma create_partition (s : Store) (p : Vec2) (d : Q) (k : Element) :
  partition s -> partition (createEntity random cos sin s p d k).
Proof.
  intros P.
  assert (Hfresh : forall k', length (entities s) ∉ members s k').
  { intros k' Hin. assert (length (entities s) < length (entities s))%nat; [|lia].
    apply (part_cover s P). eauto. }
  apply partition_intro.
  - intros k'. rewrite create_members. apply NoDup_app.
    split; [apply (part_nodup s P)|].
    split; [|destruct (decide (k' = k)); [apply NoDup_singleton|apply NoDup_nil_2]].
    intros r Hr Hin. destruct (decide (k' = k)); [|by apply not_elem_of_nil in Hin].
    apply list_elem_of_singleton in Hin as ->. by apply (Hfresh k').
  - intros k' r. rewrite create_members, create_kindOf, elem_of_app.
    rewrite (partition_member s k' r P).
    destruct (decide (r = length (entities s))) as [->|Hne].
    + split.
      * intros [Hin|Hin].
        -- apply (partition_member s k' _ P) in Hin. by apply Hfresh in Hin.
        -- destruct (decide (k' = k)) as [->|]; [done|by apply not_elem_of_nil in Hin].
      * intros [= ->]. right. rewrite decide_True by done.
        by apply list_elem_of_singleton.
    + split; [|by auto].
      intros [?|Hin]; [done|].
      destruct (decide (k' = k)); [|by apply not_elem_of_nil in Hin].
      by apply list_elem_of_singleton in Hin.
Qed.

Lemma generateOne_partition (around : Vec2) (spread : Q) (k : Element)
    (s : Store) :
  partition s -> partition (generateOne random cos sin PI around spread k s).
Proof.
  intros P. unfold generateOne, Math_random. cbv beta iota zeta.
  apply create_partition.
  by apply (partition_ext s).
Qed.

Lemma generateOne_length (around : Vec2) (spread : Q) (k : Element)
    (s : Store) :
  length (entities (generateOne random cos sin PI around spread k s))
  = S (length (entities s)).
Proof.
  unfold generateOne, Math_random. cbv beta iota zeta.
  by rewrite create_length.
Qed.

Lemma generateLoop_ind (I : Store -> Prop) (body : Store -> Store)
    (count : Q) (fuel i : nat) (s : Store) :
  (forall s, I s -> I (body s)) -> I s ->
  I (generateLoop fuel i count body s).
Proof.
  intros Hbody. revert i s. induction fuel as [|fuel IH]; intros i s Hs; [done|].
  simpl. destruct (Qltb _ count); [|done]. by apply IH, Hbody.
Qed.

Lemma generate_partition (s : Store) (around : Vec2) (spread count : Q)
    (k : Element) :
  partition s ->
  partition (generateEntities random cos sin PI s around spread count k).
Proof.
  intros P. unfold generateEntities. apply generateLoop_ind; [|done].
  intros s'. apply generateOne_partition.
Qed.

Lemma start_partition : partition (start random cos sin PI).
Proof.
  unfold start. do 3 apply generate_partition. apply partition_initial.
Qed.

(** The click listener is [createEntity] after some draws. *)
Lemma onClick_create (s : Store) (x y : Q) :
  exists n d k,
    onClick random cos sin PI s x y
    = createEntity random cos sin
        (mkStore (entities s) (entityByElement s) n) (x, y) d k.
Proof.
  unfold onClick, Math_random. cbv beta iota zeta. simpl randomCalls.
  destruct (Qltb (random (randomCalls s)) (fdiv 1 3)); cbv beta iota zeta;
    simpl entities; simpl entityByElement; simpl randomCalls; eauto.
Qed.

Lemma onClick_partition (s : Store) (x y : Q) :
  partition s -> partition (onClick random cos sin PI s x y).
Proof.
  intros P. destruct (onClick_create s x y) as (n & d & k & ->).
  apply create_partition. by apply (partition_ext s).
Qed.

Lemma onClick_length (s : Store) (x y : Q) :
  length (entities (onClick random cos sin PI s x y))
  = S (length (entities s)).
Proof.
  destruct (onClick_create s x y) as (n & d & k & ->).
  by rewrite create_length.
Qed.

Lemma perform_partition (s : Store) (a : Action) :
  partition s -> partition (perform random cos sin PI s a).
Proof.
  intros P. destruct a; simpl.
  - by apply update_partition.
  - by apply create_partition.
  - by apply generate_partition.
  - by apply onClick_partition.
Qed.

Lemma run_partition (s : Store) (actions : list Action) :
  partition s -> partition (run random cos sin PI s actions).
Proof.
  unfold run. revert s. induction actions as [|a l IH]; intros s P; [done|].
  simpl. by apply IH, perform_partition.
Qed.
End SpawnerFacts.

(** ** The invariant between ticks *)

(** C1.  Partition invariant: the three per-element arrays are duplicate-free
    and pairwise disjoint, the entities they hold are those of the canonical
    array, and each entity is in the array of its [element] field
    ([partition]).  The invariant holds between ticks, that is after the
    three initial clusters and any sequence of ticks, spawns and clicks; it
    is preserved by [createEntity], by [changeEntityElement] on a live entity
    and by [update]; and under it the three array sizes add up to the size
    of the canonical array. *)
Theorem partition_invariant (random : nat -> Q) (cos sin : Q -> Q) (PI : Q) :
  (forall actions,
     partition (run random cos sin PI (start random cos sin PI) actions))
  /\ (forall s,
        partition s ->
        (forall p d k, partition (createEntity random cos sin s p d k))
        /\ (forall i k, (i < length (entities s))%nat ->
                        partition (changeEntityElement s i k))
        /\ partition (update s)
        /\ (forall actions, partition (run random cos sin PI s actions))
        /\ (countOf s rock + countOf s paper + countOf s scissors
            = length (entities s))%nat).
Proof.
  split; [intros actions; apply run_partition, start_partition|].
  intros s P. split; [|split; [|split; [|split]]].
  - intros p d k. by apply create_partition.
  - intros i k Hlt. by apply change_partition.
  - by apply update_partition.
  - intros actions. by apply run_partition.
  - by apply partition_count.
Qed.

(** ** The dominance cycle *)

Lemma enemyOf_ne (k : Element) : enemyOf k <> k.
Proof. by destruct k. Qed.

Lemma enemyOf_inj (k1 k2 : Element) : enemyOf k1 = enemyOf k2 -> k1 = k2.
Proof. by destruct k1, k2. Qed.

Lemma kindOf_live (s : Store) (r : Ref) (k : Element) :
  kindOf s r = Some k -> (r < length (entities s))%nat.
Proof.
  unfold kindOf. intros H. apply lookup_lt_is_Some.
  destruct (entities s !! r); [eauto|done].
Qed.

Lemma inRange_dec (s : Store) (i r : Ref) (e o : Entity) :
  entities s !! i = Some e -> entities s !! r = Some o ->
  ~ inRange s i r <-> ENTITY_SIZE * 2 <= distance e o.
Proof.
  intros He Ho. split.
  - intros Hn. apply Qnot_lt_le. intros Hlt. apply Hn. by exists e, o.
  - intros Hle (e' & o' & He' & Ho' & Hc).
    rewrite He in He'. rewrite Ho in Ho'. injection He' as <-. injection Ho' as <-.
    by apply Qlt_not_le in Hc.
Qed.

(** C2.  Collision resolver contract, with the distance that the code
    computes: [Math.hypot] of the rounded differences of the coordinates.
    For a live entity [E] of element [A] in a store satisfying the partition
    invariant, with [C = enemyOf A] the element that beats [A]: after
    [checkCollision] the element of [E] is [C] if and only if some entity of
    element [C] is at a computed distance strictly less than
    [ENTITY_SIZE * 2] of [E]; in that case the array of [C] splits at its
    first entity in range, every entity before it being out of range, and
    the pass is the single call [changeEntityElement E C]; when every entity
    of element [C] is at a computed distance of at least [ENTITY_SIZE * 2],
    and in particular when the array of [C] is empty, the store is
    unchanged; the element of [E] after the pass is [A] or [C]. *)
Theorem resolver_contract (s : Store) (E : Ref) (A : Element) :
  partition s -> kindOf s E = Some A ->
  (kindOf (checkCollision s E) E = Some (enemyOf A)
   <-> exists D, kindOf s D = Some (enemyOf A) /\ inRange s E D)
  /\ ((exists D, kindOf s D = Some (enemyOf A) /\ inRange s E D) ->
      exists l1 D l2,
        members s (enemyOf A) = l1 ++ D :: l2
        /\ (forall r, r ∈ l1 -> ~ inRange s E r)
        /\ inRange s E D
        /\ checkCollision s E = changeEntityElement s E (enemyOf A))
  /\ ((forall D e o, kindOf s D = Some (enemyOf A) ->
         entities s !! E = Some e -> entities s !! D = Some o ->
         ENTITY_SIZE * 2 <= distance e o) ->
      checkCollision s E = s)
  /\ (members s (enemyOf A) = [] -> checkCollision s E = s)
  /\ (kindOf (checkCollision s E) E = Some A
      \/ kindOf (checkCollision s E) E = Some (enemyOf A)).
Proof.
  intros P HA. pose proof (kindOf_live _ _ _ HA) as Hlive.
  pose proof (enemyOf_ne A) as Hne.
  destruct (resolve_cases s E A P HA)
    as [[Hout Heq]|(l1 & D & l2 & Hl & Hbefore & HD & Heq)].
  - (* nobody in range *)
    assert (Hnone : ~ exists D, kindOf s D = Some (enemyOf A) /\ inRange s E D).
    { intros (D & HDk & HDr). apply (Hout D); [|done].
      by apply partition_member. }
    rewrite Heq, HA. split; [|split; [|split; [|split]]].
    + split; [|done]. intros [= ?]. by destruct Hne.
    + done.
    + done.
    + done.
    + by left.
  - (* the first entity in range is D *)
    assert (HDk : kindOf s D = Some (enemyOf A)).
    { apply partition_member; [done|]. rewrite Hl, elem_of_app, elem_of_cons. auto. }
    rewrite Heq, change_kindOf, decide_True by done.
    split; [|split; [|split; [|split]]].
    + split; [eauto|done].
    + intros _. by exists l1, D, l2.
    + intros Hfar. destruct HD as (e & o & He & Ho & Hc).
      specialize (Hfar D e o HDk He Ho). by apply Qlt_not_le in Hc.
    + intros Hnil. rewrite Hnil in Hl. by destruct l1.
    + by right.
Qed.

(** ** What a step leaves alone *)

Lemma change_other (s : Store) (i r : Ref) (k : Element) :
  r <> i -> entities (changeEntityElement s i k) !! r = entities s !! r.
Proof. intros Hne. rewrite change_lookup. by rewrite decide_False. Qed.

Lemma change_body (s : Store) (i r : Ref) (k : Element) :
  pos <$> entities (changeEntityElement s i k) !! r = pos <$> entities s !! r
  /\ vel <$> entities (changeEntityElement s i k) !! r = vel <$> entities s !! r.
Proof.
  rewrite change_lookup. destruct (decide (r = i)) as [->|]; [|done].
  by destruct (entities s !! i).
Qed.

Lemma resolve_other (s : Store) (i r : Ref) :
  r <> i -> entities (checkCollision s i) !! r = entities s !! r.
Proof.
  intros Hne. destruct (resolve_shape s i) as [->|[k ->]]; [done|].
  by apply change_other.
Qed.

Lemma resolve_body (s : Store) (i r : Ref) :
  pos <$> entities (checkCollision s i) !! r = pos <$> entities s !! r
  /\ vel <$> entities (checkCollision s i) !! r = vel <$> entities s !! r.
Proof.
  destruct (resolve_shape s i) as [->|[k ->]]; [done|]. apply change_body.
Qed.

Lemma updateOne_other (s : Store) (i r : Ref) :
  r <> i -> entities (updateOne s i) !! r = entities s !! r.
Proof.
  intros Hne. unfold updateOne. rewrite resolve_other by done.
  rewrite move_lookup. by rewrite decide_False.
Qed.

Lemma updateOne_body (s : Store) (i : Ref) :
  pos <$> entities (updateOne s i) !! i
  = (fun e => pos (updateEntity e)) <$> entities s !! i
  /\ vel <$> entities (updateOne s i) !! i
     = (fun e => vel (updateEntity e)) <$> entities s !! i.
Proof.
  unfold updateOne.
  destruct (resolve_body (updateEntityAt s i) i i) as [-> ->].
  rewrite move_lookup, decide_True by done.
  by destruct (entities s !! i).
Qed.

Lemma foldl_updateOne_other (l : list Ref) (s : Store) (r : Ref) :
  r ∉ l -> entities (foldl updateOne s l) !! r = entities s !! r.
Proof.
  revert s. induction l as [|i l IH]; intros s Hr; [done|].
  apply not_elem_of_cons in Hr as [Hne Hr]. simpl.
  rewrite IH by done. by apply updateOne_other.
Qed.

(** The loop of [update] reaches a live entity exactly once: the pass splits
    into the steps before it, its own step, and the steps after it, and only
    its own step touches it. *)
Lemma update_split (s : Store) (r : Ref) :
  (r < length (entities s))%nat ->
  exists s1,
    entities s1 !! r = entities s !! r
    /\ entities (update s) !! r = entities (updateOne s1 r) !! r
    /\ (partition s -> partition s1).
Proof.
  intros Hlt. unfold update.
  replace (length (entities s)) with (r + S (length (entities s) - S r))%nat by lia.
  rewrite seq_app, foldl_app. simpl.
  exists (foldl updateOne s (seq 0 r)). split; [|split].
  - apply foldl_updateOne_other. rewrite elem_of_seq. lia.
  - apply foldl_updateOne_other. rewrite elem_of_seq. lia.
  - intros P. apply foldl_updateOne_ind; [|done].
    intros s' i. apply updateOne_partition.
Qed.

(** After a tick an entity has the position and the velocity that
    [updateEntity] gives it. *)
Lemma update_body (s : Store) (r : Ref) :
  pos <$> entities (update s) !! r
  = (fun e => pos (updateEntity e)) <$> entities s !! r
  /\ vel <$> entities (update s) !! r
     = (fun e => vel (updateEntity e)) <$> entities s !! r.
Proof.
  destruct (decide (r < length (entities s))%nat) as [Hlt|Hge].
  - destruct (update_split s r Hlt) as (s1 & H1 & -> & _).
    rewrite <- H1. apply updateOne_body.
  - rewrite !lookup_ge_None_2; [done|lia|rewrite update_length; lia].
Qed.

(** ** [updateEntity] *)

Lemma updateAxis_leaves (bound p v : Q) :
  (Qltb (fadd p v) ENTITY_SIZE || Qltb (bound - ENTITY_SIZE) (fadd p v)) = true
  <-> leaves bound p v.
Proof. unfold leaves. by rewrite orb_true_iff, !Qltb_spec. Qed.

Lemma clamp_bounds (value min max : Q) :
  min <= max -> min <= clamp value min max <= max.
Proof.
  intros Hle. unfold clamp. split.
  - apply Q.le_max_l.
  - apply Q.max_lub; [done|apply Q.le_min_l].
Qed.

(** On an axis at least [2 * ENTITY_SIZE] long the new position is inside. *)
Lemma updateAxis_bounds (bound p v : Q) :
  2 * ENTITY_SIZE <= bound ->
  ENTITY_SIZE <= fst (updateAxis bound p v) <= bound - ENTITY_SIZE.
Proof.
  intros Hb. unfold updateAxis.
  destruct (Qltb (fadd p v) ENTITY_SIZE || Qltb (bound - ENTITY_SIZE) (fadd p v)) eqn:Ht.
  - simpl. apply clamp_bounds. lra.
  - simpl. apply not_true_iff_false in Ht. rewrite updateAxis_leaves in Ht.
    unfold leaves in Ht. split; apply Qnot_lt_le; tauto.
Qed.

Lemma updateAxis_velocity (bound p v : Q) :
  (leaves bound p v -> snd (updateAxis bound p v) = v * -1)
  /\ (~ leaves bound p v -> snd (updateAxis bound p v) = v).
Proof.
  unfold updateAxis.
  destruct (Qltb (fadd p v) ENTITY_SIZE || Qltb (bound - ENTITY_SIZE) (fadd p v)) eqn:Ht.
  - apply updateAxis_leaves in Ht. by split.
  - apply not_true_iff_false in Ht. rewrite updateAxis_leaves in Ht. by split.
Qed.

Lemma updateEntity_inArena (e : Entity) : inArena (updateEntity e).
Proof.
  unfold inArena, updateEntity. simpl.
  split; apply updateAxis_bounds; unfold ENTITY_SIZE, width, height; lra.
Qed.

(** C3.  Boundary containment: whatever the position and the velocity of an
    entity, after [updateEntity] its position satisfies
    [ENTITY_SIZE <= x <= canvas.width - ENTITY_SIZE] and
    [ENTITY_SIZE <= y <= canvas.height - ENTITY_SIZE]; so does the entity in
    the store after [updateEntity], and so does every entity of the store
    after a tick.  The canvas of the program is 400 by 400; on each axis the
    bound holds for any arena at least [2 * ENTITY_SIZE] long. *)
Theorem boundary_containment :
  (forall e, inArena (updateEntity e))
  /\ (forall s r e, entities (updateEntityAt s r) !! r = Some e -> inArena e)
  /\ (forall s r e, entities (update s) !! r = Some e -> inArena e)
  /\ (forall bound p v,
        2 * ENTITY_SIZE <= bound ->
        ENTITY_SIZE <= fst (updateAxis bound p v) <= bound - ENTITY_SIZE).
Proof.
  split; [apply updateEntity_inArena|]. split; [|split].
  - intros s r e. rewrite move_lookup, decide_True by done.
    destruct (entities s !! r) as [e0|]; [|done].
    intros [= <-]. apply updateEntity_inArena.
  - intros s r e He. destruct (update_body s r) as [Hp _].
    rewrite He in Hp. destruct (entities s !! r) as [e0|]; [|done].
    simpl in Hp. injection Hp as Hp.
    pose proof (updateEntity_inArena e0) as H0.
    unfold inArena in *. by rewrite Hp.
  - apply updateAxis_bounds.
Qed.

(** C4.  Reflection scenario: the canvas is 400 by 400 and [ENTITY_SIZE] is
    10; a store holding a single entity at [(5, 200)] with velocity
    [(-1, 0)] holds after one [update] that entity at [(10, 200)] with
    velocity [(1, 0)]: [x] is clamped to 10, the [x] velocity is negated, and
    the [y] position and velocity are those before the tick. *)
Theorem reflection_scenario (k : Element) :
  canvas = mkCanvas 400 400 /\ ENTITY_SIZE = 10
  /\ entities (update (single (mkEntity (5, 200) (-1, 0) k)))
     = [mkEntity (10, 200) (1, 0) k].
Proof. destruct k; repeat split; vm_compute; reflexivity. Qed.

(** C7.  Frame condition of collision resolution: [checkCollision] leaves
    the position and the velocity of every entity as they were, and leaves
    every entity other than the one it is called on unchanged, element
    included; the same holds of [changeEntityElement].  Velocity is written
    by [updateEntity] alone: on each axis it is multiplied by [-1] when the
    moved position, the rounded sum that the code computes, is outside
    [[ENTITY_SIZE, bound - ENTITY_SIZE]] and kept
    otherwise, and after a whole tick the velocity of an entity is the one
    [updateEntity] gave it. *)
Theorem collision_frame (s : Store) (i : Ref) :
  (forall r,
     pos <$> entities (checkCollision s i) !! r = pos <$> entities s !! r
     /\ vel <$> entities (checkCollision s i) !! r = vel <$> entities s !! r)
  /\ (forall r, r <> i ->
        entities (checkCollision s i) !! r = entities s !! r)
  /\ (forall k r,
        pos <$> entities (changeEntityElement s i k) !! r = pos <$> entities s !! r
        /\ vel <$> entities (changeEntityElement s i k) !! r = vel <$> entities s !! r
        /\ (r <> i -> entities (changeEntityElement s i k) !! r = entities s !! r))
  /\ (forall bound p v,
        (leaves bound p v -> snd (updateAxis bound p v) = v * -1)
        /\ (~ leaves bound p v -> snd (updateAxis bound p v) = v))
  /\ (forall r,
        vel <$> entities (update s) !! r
        = (fun e => vel (updateEntity e)) <$> entities s !! r).
Proof.
  split; [apply resolve_body|]. split; [apply resolve_other|].
  split; [|split].
  - intros k r. destruct (change_body s i r k) as [Hp Hv].
    split; [done|]. split; [done|]. apply change_other.
  - apply updateAxis_velocity.
  - intros r. apply update_body.
Qed.

(** ** Stores reached by steps of a tick *)

Lemma steps_partition (s0 s : Store) :
  partition s0 -> steps s0 s -> partition s.
Proof.
  intros P. induction 1 as [|s r _ IH _|s r _ IH _]; [done|..].
  - by apply move_partition.
  - by apply resolve_partition.
Qed.

Lemma steps_length (s0 s : Store) :
  steps s0 s -> length (entities s) = length (entities s0).
Proof.
  induction 1 as [|s r _ IH _|s r _ IH _]; [done|..].
  - by rewrite move_length.
  - by rewrite resolve_length.
Qed.

Lemma steps_foldl (s0 : Store) (l : list Ref) (s : Store) :
  Forall (fun r => r < length (entities s0))%nat l ->
  steps s0 s -> steps s0 (foldl updateOne s l).
Proof.
  intros Hl. revert s. induction Hl as [|r l Hr _ IH]; intros s Hs; [done|].
  simpl. apply IH. unfold updateOne.
  apply steps_resolve; [apply steps_move; [done|]|].
  - by rewrite (steps_length s0 s).
  - by rewrite move_length, (steps_length s0 s).
Qed.

Lemma steps_update (s0 s : Store) : steps s0 s -> steps s0 (update s).
Proof.
  intros Hs. unfold update. apply steps_foldl; [|done].
  apply Forall_forall. intros r [_ Hr]%elem_of_seq.
  rewrite <- (steps_length s0 s Hs). simpl in Hr. lia.
Qed.

Lemma steps_ticks (s : Store) (n : nat) : steps s (Nat.iter n update s).
Proof.
  induction n as [|n IH]; [apply steps_here|]. simpl. by apply steps_update.
Qed.

Lemma update_kindOf (s : Store) (r : Ref) (A : Element) :
  partition s -> kindOf s r = Some A ->
  kindOf (update s) r = Some A \/ kindOf (update s) r = Some (enemyOf A).
Proof.
  intros P HA. pose proof (kindOf_live _ _ _ HA) as Hlt.
  destruct (update_split s r Hlt) as (s1 & H1 & H2 & P1).
  specialize (P1 P).
  assert (Hk : kindOf (update s) r = kindOf (updateOne s1 r) r)
    by (unfold kindOf; by rewrite H2).
  rewrite Hk. unfold updateOne.
  assert (HA1 : kindOf (updateEntityAt s1 r) r = Some A).
  { rewrite move_kindOf. unfold kindOf. by rewrite H1. }
  pose proof (move_partition s1 r P1) as P2.
  destruct (resolve_cases _ r A P2 HA1) as [[_ ->]|(_ & _ & _ & _ & _ & _ & ->)].
  - by left.
  - right. rewrite change_kindOf, decide_True; [done..|].
    by apply (kindOf_live _ _ A).
Qed.

(** C5.  No self or partial dominance.  The cycle is fixed: paper beats
    rock, scissors beats paper, rock beats scissors, so the element that
    beats [A] is a single element, different from [A] and from the element
    that [A] beats.  At every store reached from a store satisfying the
    partition invariant by steps of the motion integrator and of the
    resolver (in particular after any number of ticks), for a live entity
    [E] of element [A]: the resolver scans the array of [enemyOf A] and no
    other; when no entity of element [enemyOf A] is in range (at a distance
    that the code computes below [ENTITY_SIZE * 2]) the store is
    unchanged, wherever the entities of element [A] and of the element that
    [A] beats are; when the element of [E] changes, it becomes [enemyOf A]
    and an entity of element [enemyOf A] is in range.  Over a whole tick the
    element of an entity stays or becomes the one that beats it. *)
Theorem no_self_dominance :
  (enemyOf rock = paper /\ enemyOf paper = scissors /\ enemyOf scissors = rock)
  /\ (forall A, enemyOf A <> A /\ enemyOf (enemyOf A) <> A
                /\ forall B, enemyOf B = enemyOf A -> B = A)
  /\ (forall s0 s E A e,
        partition s0 -> steps s0 s -> entities s !! E = Some e ->
        element e = A ->
        checkCollision s E = scanEnemies s E e (members s (enemyOf A))
        /\ ((forall D, kindOf s D = Some (enemyOf A) -> ~ inRange s E D) ->
            checkCollision s E = s)
        /\ (kindOf (checkCollision s E) E <> Some A ->
            kindOf (checkCollision s E) E = Some (enemyOf A)
            /\ exists D, kindOf s D = Some (enemyOf A) /\ inRange s E D))
  /\ (forall s n, steps s (Nat.iter n update s))
  /\ (forall s r A,
        partition s -> kindOf s r = Some A ->
        kindOf (update s) r = Some A \/ kindOf (update s) r = Some (enemyOf A)).
Proof.
  split; [done|]. split; [|split; [|split]].
  - intros A. split; [apply enemyOf_ne|]. split; [by destruct A|].
    intros B. apply enemyOf_inj.
  - intros s0 s E A e P0 Hs He HA.
    pose proof (steps_partition s0 s P0 Hs) as P.
    assert (Hk : kindOf s E = Some A) by (unfold kindOf; by rewrite He, <- HA).
    split; [|split].
    + unfold checkCollision, members. by rewrite He, HA.
    + intros Hfar.
      destruct (resolve_cases s E A P Hk) as [[_ ->]|(l1 & D & l2 & Hl & _ & HD & _)];
        [done|].
      destruct (Hfar D); [|done]. apply partition_member; [done|].
      rewrite Hl, elem_of_app, elem_of_cons. auto.
    + intros Hch.
      destruct (resolve_cases s E A P Hk)
        as [[_ Heq]|(l1 & D & l2 & Hl & _ & HD & Heq)].
      * rewrite Heq in Hch. by destruct Hch.
      * rewrite Heq, change_kindOf, decide_True by (done || by eapply kindOf_live).
        split; [done|]. exists D. split; [|done].
        apply partition_member; [done|].
        rewrite Hl, elem_of_app, elem_of_cons. auto.
  - intros s n. apply steps_ticks.
  - intros s r A. apply update_kindOf.
Qed.

(** An entity that reached [x = ENTITY_SIZE] moving left is reflected by the
    next integration step; the [y] velocity is not touched. *)
Example reflection_at_the_wall :
  updateEntity (mkEntity (10, 200) (-1, 3) scissors)
  = mkEntity (10, 203) (1, 3) scissors.
Proof. vm_compute. reflexivity. Qed.

(** ** Empty arrays *)

Lemma updateOne_empty (s : Store) (i : Ref) (K : Element) :
  partition s -> members s K = [] -> members (updateOne s i) K = [].
Proof.
  intros P HK. unfold updateOne.
  pose proof (move_partition s i P) as P1.
  assert (HK1 : members (updateEntityAt s i) K = [])
    by (unfold members; by rewrite move_table).
  destruct (kindOf (updateEntityAt s i) i) as [a|] eqn:Ha.
  - destruct (resolve_cases _ i a P1 Ha)
      as [[_ ->]|(l1 & D & l2 & Hl & _ & _ & ->)]; [done|].
    rewrite change_members, HK1 by (done || by eapply kindOf_live).
    destruct (decide (K = enemyOf a)) as [->|]; [|done].
    rewrite HK1 in Hl. by destruct l1.
  - unfold checkCollision. unfold kindOf in Ha.
    by destruct (entities (updateEntityAt s i) !! i).
Qed.

(** C9.  Eliminated kinds stay eliminated under ticking: in a store
    satisfying the partition invariant, an array that is empty before
    [update] is empty after it, and after any number of ticks; a spawn puts
    an entity in it exactly when it is a spawn of that element. *)
Theorem eliminated_stays_eliminated (s : Store) (K : Element) :
  partition s -> members s K = [] ->
  members (update s) K = []
  /\ countOf (update s) K = 0%nat
  /\ (forall n, members (Nat.iter n update s) K = [])
  /\ (forall random cos sin p d k,
        members (createEntity random cos sin s p d k) K = [] <-> k <> K).
Proof.
  intros P HK.
  assert (Hstep : forall s', partition s' /\ members s' K = [] ->
                             partition (update s') /\ members (update s') K = []).
  { intros s' [P' HK']. unfold update.
    apply (foldl_updateOne_ind (fun s1 => partition s1 /\ members s1 K = []));
      [|done].
    intros s1 i [P1 H1]. split; [by apply updateOne_partition|].
    by apply updateOne_empty. }
  destruct (Hstep s (conj P HK)) as [_ HK'].
  split; [done|]. split; [unfold countOf; fold (members (update s) K); by rewrite HK'|].
  split.
  - intros n.
    assert (Hn : partition (Nat.iter n update s)
                 /\ members (Nat.iter n update s) K = []); [|by destruct Hn].
    induction n as [|n IH]; [done|]. simpl. by apply Hstep.
  - intros random cos sin p d k. rewrite create_members, HK. simpl.
    destruct (decide (K = k)) as [->|Hne]; split; done.
Qed.

(** ** Population *)

Section Population.
Variable random : nat -> Q.
Variables cos sin : Q -> Q.
Variable PI : Q.

Lemma generate_length_le (s : Store) (around : Vec2) (spread count : Q)
    (k : Element) :
  (length (entities s)
   <= length (entities (generateEntities random cos sin PI s around spread count k)))%nat.
Proof.
  unfold generateEntities.
  apply (generateLoop_ind (fun s' => length (entities s) <= length (entities s'))%nat);
    [|done].
  intros s' Hle. rewrite generateOne_length. lia.
Qed.

Lemma perform_length_le (s : Store) (a : Action) :
  (length (entities s) <= length (entities (perform random cos sin PI s a)))%nat.
Proof.
  destruct a; cbv beta iota delta [perform].
  - by rewrite update_length.
  - rewrite create_length. lia.
  - apply generate_length_le.
  - rewrite onClick_length. lia.
Qed.

Lemma run_length_le (s : Store) (actions : list Action) :
  (length (entities s) <= length (entities (run random cos sin PI s actions)))%nat.
Proof.
  unfold run. revert s. induction actions as [|a l IH]; intros s; [done|].
  simpl. etrans; [apply (perform_length_le s a)|apply IH].
Qed.

Lemma run_app (s : Store) (l1 l2 : list Action) :
  run random cos sin PI s (l1 ++ l2)
  = run random cos sin PI (run random cos sin PI s l1) l2.
Proof. unfold run. apply foldl_app. Qed.
End Population.

(** C6.  Monotonic population: [update] leaves the length of the canonical
    array unchanged, and with it the set of live references (no entity is
    allocated, none removed); each [createEntity] makes it longer by exactly
    one and keeps the entities that were there in their places; over any
    sequence of ticks and spawns the length never decreases, from any point
    of the sequence to any later one. *)
Theorem population_monotone (random : nat -> Q) (cos sin : Q -> Q) (PI : Q)
    (s : Store) :
  length (entities (update s)) = length (entities s)
  /\ (forall r, is_Some (entities (update s) !! r) <-> is_Some (entities s !! r))
  /\ (forall p d k,
        length (entities (createEntity random cos sin s p d k))
        = S (length (entities s))
        /\ forall r e, entities s !! r = Some e ->
             entities (createEntity random cos sin s p d k) !! r = Some e)
  /\ (forall actions,
        (length (entities s)
         <= length (entities (run random cos sin PI s actions)))%nat)
  /\ (forall before after,
        (length (entities (run random cos sin PI s before))
         <= length (entities (run random cos sin PI s (before ++ after))))%nat).
Proof.
  split; [apply update_length|]. split; [|split; [|split]].
  - intros r. by rewrite !lookup_lt_is_Some, update_length.
  - intros p d k. split; [apply create_length|].
    intros r e He. rewrite create_entities. by apply lookup_app_l_Some.
  - apply run_length_le.
  - intros before after. rewrite run_app. apply run_length_le.
Qed.

(** ** The loop of [generateEntities] *)

Lemma loop_condition (count : Q) (i : nat) :
  (i < iterations count)%nat -> Qltb (inject_Z (Z.of_nat i)) count = true.
Proof.
  unfold iterations. intros Hlt. apply Qltb_spec.
  apply Qle_lt_trans with (inject_Z (Qceiling count - 1)); [|apply Qceiling_lt].
  rewrite <- Zle_Qle. lia.
Qed.

(** When the fuel is used up the condition of the loop is false: the loop
    leaves through its condition. *)
Lemma loop_exit (count : Q) :
  Qltb (inject_Z (Z.of_nat (iterations count))) count = false.
Proof.
  apply not_true_iff_false. rewrite Qltb_spec. apply Qle_not_lt.
  unfold iterations. pose proof (Qle_ceiling count) as Hc.
  destruct (Z.le_gt_cases 0 (Qceiling count)) as [Hpos|Hneg].
  - by rewrite Z2Nat.id.
  - replace (Z.to_nat (Qceiling count)) with 0%nat by lia. simpl.
    apply Qle_trans with (inject_Z (Qceiling count)); [done|].
    rewrite <- Zle_Qle. lia.
Qed.

Lemma generateLoop_iter (count : Q) (body : Store -> Store)
    (fuel i : nat) (s : Store) :
  (i + fuel <= iterations count)%nat ->
  generateLoop fuel i count body s = Nat.iter fuel body s.
Proof.
  revert i s. induction fuel as [|fuel IH]; intros i s Hle; [done|].
  simpl generateLoop. rewrite loop_condition by lia.
  rewrite IH by lia. symmetry. apply Nat.iter_succ_r.
Qed.

Lemma iterations_nat (n : nat) : iterations (inject_Z (Z.of_nat n)) = n.
Proof. unfold iterations. rewrite Qceiling_Z. apply Nat2Z.id. Qed.

Section SpawnerContract.
Variable random : nat -> Q.
Variables cos sin : Q -> Q.
Variable PI : Q.

Lemma generate_iter (s : Store) (around : Vec2) (spread count : Q)
    (k : Element) :
  generateEntities random cos sin PI s around spread count k
  = Nat.iter (iterations count) (generateOne random cos sin PI around spread k) s.
Proof. unfold generateEntities. by apply generateLoop_iter. Qed.

Lemma generateOne_randomCalls (around : Vec2) (spread : Q) (k : Element)
    (s : Store) :
  randomCalls (generateOne random cos sin PI around spread k s)
  = (3 + randomCalls s)%nat.
Proof. reflexivity. Qed.

Lemma iter_generateOne (around : Vec2) (spread : Q) (k : Element)
    (n : nat) (s : Store) :
  length (entities (Nat.iter n (generateOne random cos sin PI around spread k) s))
  = (length (entities s) + n)%nat
  /\ randomCalls (Nat.iter n (generateOne random cos sin PI around spread k) s)
     = (3 * n + randomCalls s)%nat.
Proof.
  induction n as [|n [IH1 IH2]]; [simpl; split; lia|].
  simpl Nat.iter. rewrite generateOne_length, generateOne_randomCalls, IH1, IH2.
  split; lia.
Qed.
End SpawnerContract.

Lemma fl_const_0 : fl 0 == 0.
Proof. vm_compute. reflexivity. Qed.

Lemma fl_const_half : fl (1 # 2) == 1 # 2.
Proof. vm_compute. reflexivity. Qed.

Lemma fl_const_1 : fl 1 == 1.
Proof. vm_compute. reflexivity. Qed.

(** The speed factor and the speed computed from a value of
    [Math.random()] in [[0, 1]]. *)
Lemma spawnSpeed_range (u : Q) :
  0 <= u <= 1 ->
  let f := fadd (fmul u (1 # 2)) (1 # 2) in
  ((1 # 2) <= f /\ f <= 1) /\ spawnSpeed u == f.
Proof.
  intros [Hu0 Hu1] f. subst f. unfold spawnSpeed, fadd, fmul, ENTITY_SPEED.
  assert (H0 : 0 <= fl (u * (1 # 2))) by (apply fl_nonneg; lra).
  assert (H1 : fl (u * (1 # 2)) <= 1 # 2)
    by (apply fl_le; [apply fl_const_half|lra]).
  split; [split|].
  - apply fl_ge; [apply fl_const_half|lra].
  - apply fl_le; [apply fl_const_1|lra].
  - rewrite (fl_proper (1 * fl (fl (u * (1 # 2)) + (1 # 2)))
                       (fl (fl (u * (1 # 2)) + (1 # 2)))) by ring.
    apply fl_idem.
Qed.

(** The direction and the radial distance that one round of
    [generateEntities] computes. *)
Lemma direction_range (u PI : Q) :
  0 <= u <= 1 - pow2 (-53) -> pow2 (-1022) < PI ->
  0 <= fmul (fmul u PI) 2 /\ fmul (fmul u PI) 2 < 2 * PI.
Proof.
  intros Hu HPI. pose proof (pow2_pos (-1022)) as Hp.
  unfold fmul. rewrite fl_double.
  assert (H0 : 0 <= fl (u * PI)).
  { apply fl_nonneg. apply Qmult_le_0_compat; lra. }
  pose proof (fl_below u PI Hu HPI). lra.
Qed.

Lemma radius_range (u spread : Q) :
  0 <= u <= 1 - pow2 (-53) -> pow2 (-1022) < spread ->
  0 <= fmul u spread /\ fmul u spread < spread.
Proof.
  intros Hu Hs. pose proof (pow2_pos (-1022)) as Hp. unfold fmul. split.
  - apply fl_nonneg. apply Qmult_le_0_compat; lra.
  - by apply fl_below.
Qed.

(** C8.  Spawner contract, for a platform whose [Math.random()] returns
    binary64 values in [[0, 1)] (at most [1 - 2^-53], the largest one below
    1) and whose [Math.PI] is a positive normal number.

    [createEntity(pos, direction, element)] draws one random value [u] and
    appends exactly one entity to the canonical array and to the array of
    its element: at [pos], of element [element], with the velocity
    [(cos direction * speed, sin direction * speed)] where
    [speed = ENTITY_SPEED * f] and [f = u * 0.5 + 0.5], all computed in
    binary64; [f] is in [[1/2, 1]] and [speed] is [f].

    One round of [generateEntities] draws a direction [u1 * PI * 2] in
    [[0, 2 * PI)] and a radial distance [u2 * spread], which is in
    [[0, spread)] when [spread] is a positive normal number; it calls
    [createEntity] at [around + (cos direction, sin direction) * distance]
    (as computed) with that same direction, and uses three draws of its own.
    With [count] a natural number, [generateEntities] is [count] such rounds,
    one after the other: the canonical array grows by [count] and
    [3 * count] values are drawn; [count = 0] leaves the store unchanged. *)
Theorem spawner_contract (random : nat -> Q) (cos sin : Q -> Q) (PI : Q)
    (s : Store) :
  (forall n, 0 <= random n /\ random n <= 1 - pow2 (-53)) ->
  pow2 (-1022) < PI ->
  (forall p d k,
     let f := fadd (fmul (random (randomCalls s)) (1 # 2)) (1 # 2) in
     let speed := fmul ENTITY_SPEED f in
     let s' := createEntity random cos sin s p d k in
     ((1 # 2) <= f /\ f <= 1 /\ speed == f)
     /\ entities s'
        = entities s ++ [mkEntity p (fmul (cos d) speed, fmul (sin d) speed) k]
     /\ (forall k', members s' k'
           = members s k'
             ++ (if decide (k' = k) then [length (entities s)] else []))
     /\ randomCalls s' = S (randomCalls s))
  /\ (forall around spread k,
        let direction := fmul (fmul (random (randomCalls s)) PI) 2 in
        let radius := fmul (random (S (randomCalls s))) spread in
        let s' := generateOne random cos sin PI around spread k s in
        (0 <= direction /\ direction < 2 * PI)
        /\ (pow2 (-1022) < spread -> 0 <= radius /\ radius < spread)
        /\ s' = createEntity random cos sin
                  (mkStore (entities s) (entityByElement s)
                           (2 + randomCalls s))
                  (fadd (fst around) (fmul (cos direction) radius),
                   fadd (snd around) (fmul (sin direction) radius))
                  direction k
        /\ length (entities s') = S (length (entities s))
        /\ randomCalls s' = (3 + randomCalls s)%nat)
  /\ (forall around spread (count : nat) k,
        let s' := generateEntities random cos sin PI s around spread
                    (inject_Z (Z.of_nat count)) k in
        s' = Nat.iter count (generateOne random cos sin PI around spread k) s
        /\ length (entities s') = (length (entities s) + count)%nat
        /\ randomCalls s' = (3 * count + randomCalls s)%nat)
  /\ (forall around spread k,
        generateEntities random cos sin PI s around spread 0 k = s).
Proof.
  intros Hrange HPI. pose proof (pow2_pos (-53)) as Hp53.
  split; [|split; [|split]].
  - intros p d k f speed s'.
    destruct (Hrange (randomCalls s)) as [H0 H1].
    destruct (spawnSpeed_range (random (randomCalls s))) as [[Hf1 Hf2] Hsp];
      [lra|].
    split; [by repeat split|].
    split; [apply create_entities|].
    split; [intros k'; apply create_members|reflexivity].
  - intros around spread k direction radius s'.
    split; [by apply direction_range|].
    split; [intros Hs; by apply radius_range|].
    split; [reflexivity|].
    split; [apply generateOne_length|reflexivity].
  - intros around spread count k s'. subst s'.
    rewrite generate_iter, iterations_nat.
    split; [done|]. apply iter_generateOne.
  - intros around spread k. reflexivity.
Qed.

(** * Further properties of the code *)

(** ** [clamp] and the walls *)

Lemma clamp_low (value min max : Q) :
  min <= max -> value <= min -> clamp value min max == min.
Proof.
  intros Hb Hv. unfold clamp. apply Q.max_l.
  apply Qle_trans with value; [apply Q.le_min_r|done].
Qed.

Lemma clamp_high (value min max : Q) :
  min <= max -> max <= value -> clamp value min max == max.
Proof.
  intros Hb Hv. unfold clamp. rewrite (Q.min_l max value Hv). by apply Q.max_r.
Qed.

Lemma clamp_mid (value min max : Q) :
  min <= value <= max -> clamp value min max == value.
Proof.
  intros [H1 H2]. unfold clamp. rewrite (Q.min_r max value H2). by apply Q.max_r.
Qed.

Lemma clamp_crossed (value min max : Q) :
  max < min -> clamp value min max == min.
Proof.
  intros Hb. unfold clamp. apply Q.max_l.
  apply Qle_trans with max; [apply Q.le_min_l|by apply Qlt_le_weak].
Qed.

(** X1.  [clamp(value, min, max)]: with [min <= max] the result is [min] for
    a value at or below [min], [max] for a value at or above [max], and the
    value itself in between; with [max < min] the result is [min] whatever
    the value. *)
Theorem clamp_cases (value min max : Q) :
  (max < min -> clamp value min max == min)
  /\ (min <= max ->
      (value <= min -> clamp value min max == min)
      /\ (max <= value -> clamp value min max == max)
      /\ (min <= value <= max -> clamp value min max == value)).
Proof.
  split; [apply clamp_crossed|]. intros Hb.
  split; [by apply clamp_low|]. split; [by apply clamp_high|apply clamp_mid].
Qed.

Lemma updateAxis_inside (bound p v : Q) :
  ~ leaves bound p v -> updateAxis bound p v = (fadd p v, v).
Proof.
  intros Hn. unfold updateAxis.
  destruct (Qltb (fadd p v) ENTITY_SIZE || Qltb (bound - ENTITY_SIZE) (fadd p v)) eqn:Ht;
    [|done].
  by apply updateAxis_leaves in Ht.
Qed.

Lemma updateAxis_outside (bound p v : Q) :
  leaves bound p v ->
  updateAxis bound p v
  = (clamp (fadd p v) ENTITY_SIZE (bound - ENTITY_SIZE), v * -1).
Proof.
  intros Hl. unfold updateAxis. apply updateAxis_leaves in Hl. by rewrite Hl.
Qed.

Lemma updateAxis_low (bound p v : Q) :
  2 * ENTITY_SIZE <= bound -> fadd p v < ENTITY_SIZE ->
  fst (updateAxis bound p v) == ENTITY_SIZE
  /\ snd (updateAxis bound p v) = v * -1.
Proof.
  intros Hb Hlt. rewrite updateAxis_outside by (by left). simpl.
  split; [|done]. apply clamp_low; lra.
Qed.

Lemma updateAxis_high (bound p v : Q) :
  2 * ENTITY_SIZE <= bound -> bound - ENTITY_SIZE < fadd p v ->
  fst (updateAxis bound p v) == bound - ENTITY_SIZE
  /\ snd (updateAxis bound p v) = v * -1.
Proof.
  intros Hb Hlt. rewrite updateAxis_outside by (by right). simpl.
  split; [|done]. apply clamp_high; lra.
Qed.

(** X2.  A reflected entity lands on the wall: on an axis at least
    [2 * ENTITY_SIZE] long, when the moved position (the sum of position and
    velocity as binary64 rounds it) is below [ENTITY_SIZE]
    the new position is [ENTITY_SIZE], when it is above
    [bound - ENTITY_SIZE] the new position is [bound - ENTITY_SIZE] (the
    overshoot is dropped, not mirrored), and in both cases the velocity is
    multiplied by [-1]; otherwise the entity moves by its velocity. *)
Theorem reflection_lands_on_wall (bound p v : Q) :
  2 * ENTITY_SIZE <= bound ->
  (fadd p v < ENTITY_SIZE ->
   fst (updateAxis bound p v) == ENTITY_SIZE
   /\ snd (updateAxis bound p v) = v * -1)
  /\ (bound - ENTITY_SIZE < fadd p v ->
      fst (updateAxis bound p v) == bound - ENTITY_SIZE
      /\ snd (updateAxis bound p v) = v * -1)
  /\ (ENTITY_SIZE <= fadd p v <= bound - ENTITY_SIZE ->
      updateAxis bound p v = (fadd p v, v)).
Proof.
  intros Hb. split; [by apply updateAxis_low|]. split; [by apply updateAxis_high|].
  intros [H1 H2]. apply updateAxis_inside. unfold leaves. lra.
Qed.

Lemma fl_const_size : fl ENTITY_SIZE == ENTITY_SIZE.
Proof. vm_compute. reflexivity. Qed.

Lemma updateAxis_once (bound p v : Q) :
  fl (bound - ENTITY_SIZE) == bound - ENTITY_SIZE ->
  2 * ENTITY_SIZE <= bound -> ENTITY_SIZE <= p <= bound - ENTITY_SIZE ->
  - (bound - 2 * ENTITY_SIZE) <= v <= bound - 2 * ENTITY_SIZE ->
  leaves bound p v ->
  ~ leaves bound (fst (updateAxis bound p v)) (snd (updateAxis bound p v)).
Proof.
  intros Hfix Hb Hp Hv Hl. pose proof fl_const_size as Hsz.
  unfold leaves in Hl |- *. unfold fadd in *. destruct Hl as [Hl|Hl].
  - destruct (updateAxis_low bound p v Hb Hl) as [Hq ->].
    apply (fl_lt_inv _ _ Hsz) in Hl.
    set (q := fst (updateAxis bound p v)) in *.
    assert (H1 : ENTITY_SIZE <= fl (q + v * -1)) by (apply fl_ge; [done|lra]).
    assert (H2 : fl (q + v * -1) <= bound - ENTITY_SIZE)
      by (apply fl_le; [done|lra]).
    lra.
  - destruct (updateAxis_high bound p v Hb Hl) as [Hq ->].
    apply (fl_gt_inv _ _ Hfix) in Hl.
    set (q := fst (updateAxis bound p v)) in *.
    assert (H1 : ENTITY_SIZE <= fl (q + v * -1)) by (apply fl_ge; [done|lra]).
    assert (H2 : fl (q + v * -1) <= bound - ENTITY_SIZE)
      by (apply fl_le; [done|lra]).
    lra.
Qed.

(** X3.  No double reflection: an entity inside the arena whose speed on an
    axis is at most the free length of that axis
    ([canvas.width - 2 * ENTITY_SIZE], resp. height) and that is reflected
    by [updateEntity] on that axis is not reflected on it by the next
    [updateEntity]; reflected means that the rounded sum of position and
    velocity, which the code tests, is outside the arena. *)
Theorem no_double_reflection (e : Entity) :
  inArena e ->
  Qabs (fst (vel e)) <= canvas_width canvas - 2 * ENTITY_SIZE ->
  Qabs (snd (vel e)) <= canvas_height canvas - 2 * ENTITY_SIZE ->
  (leaves (canvas_width canvas) (fst (pos e)) (fst (vel e)) ->
   ~ leaves (canvas_width canvas) (fst (pos (updateEntity e)))
            (fst (vel (updateEntity e))))
  /\ (leaves (canvas_height canvas) (snd (pos e)) (snd (vel e)) ->
      ~ leaves (canvas_height canvas) (snd (pos (updateEntity e)))
               (snd (vel (updateEntity e)))).
Proof.
  intros [Hx Hy] Hvx Hvy.
  apply Qabs_Qle_condition in Hvx, Hvy.
  unfold updateEntity. simpl.
  split; apply updateAxis_once; try done;
    try (vm_compute; reflexivity); unfold ENTITY_SIZE, width, height; lra.
Qed.

(** ** Speed *)

Lemma Qabs_flip (v : Q) : Qabs (v * -1) == Qabs v.
Proof.
  rewrite Qabs_Qmult. change (Qabs (-1)) with 1. ring.
Qed.

Lemma updateAxis_abs (bound p v : Q) :
  Qabs (snd (updateAxis bound p v)) == Qabs v.
Proof.
  unfold updateAxis.
  destruct (Qltb (fadd p v) ENTITY_SIZE || Qltb (bound - ENTITY_SIZE) (fadd p v));
    simpl; [apply Qabs_flip|reflexivity].
Qed.

Lemma updateEntity_abs (e : Entity) :
  Qabs (fst (vel (updateEntity e))) == Qabs (fst (vel e))
  /\ Qabs (snd (vel (updateEntity e))) == Qabs (snd (vel e)).
Proof. unfold updateEntity. simpl. split; apply updateAxis_abs. Qed.

Lemma update_lookup_vel (s : Store) (r : Ref) (e' : Entity) :
  entities (update s) !! r = Some e' ->
  exists e, entities s !! r = Some e /\ vel e' = vel (updateEntity e).
Proof.
  intros He'. destruct (update_body s r) as [_ Hv]. rewrite He' in Hv.
  destruct (entities s !! r) as [e|]; [|done].
  exists e. split; [done|]. simpl in Hv. by injection Hv.
Qed.

(** X4.  The speed on each axis is fixed at spawn time: [updateEntity] keeps
    the absolute value of each velocity component, and so does any number of
    ticks, whatever reflections and conversions happen. *)
Theorem axis_speed_preserved :
  (forall e,
     Qabs (fst (vel (updateEntity e))) == Qabs (fst (vel e))
     /\ Qabs (snd (vel (updateEntity e))) == Qabs (snd (vel e)))
  /\ (forall s n r e e',
        entities s !! r = Some e ->
        entities (Nat.iter n update s) !! r = Some e' ->
        Qabs (fst (vel e')) == Qabs (fst (vel e))
        /\ Qabs (snd (vel e')) == Qabs (snd (vel e))).
Proof.
  split; [apply updateEntity_abs|].
  intros s n. induction n as [|n IH]; intros r e e' He He'.
  - simpl in He'. rewrite He in He'. by injection He' as <-.
  - simpl in He'. destruct (update_lookup_vel _ _ _ He') as (e1 & He1 & Hv).
    destruct (IH r e e1 He He1) as [IH1 IH2].
    destruct (updateEntity_abs e1) as [H1 H2].
    rewrite Hv. split; [by rewrite H1|by rewrite H2].
Qed.

(** ** The collision test and the sprites *)







(** ** [changeEntityElement] outside and inside the invariant *)

Lemma Store_ext (s1 s2 : Store) :
  entities s1 = entities s2 ->
  (forall k, members s1 k = members s2 k) ->
  randomCalls s1 = randomCalls s2 ->
  s1 = s2.
Proof.
  destruct s1 as [e1 [r1 p1 c1] n1], s2 as [e2 [r2 p2 c2] n2].
  unfold members. simpl. intros -> Hm ->.
  pose proof (Hm rock). pose proof (Hm paper). pose proof (Hm scissors).
  simpl in *. by subst.
Qed.

(** X7.  [changeEntityElement] on an entity that is missing from the array
    of its element (a store outside the partition invariant): [indexOf]
    answers [-1] and [splice(-1, 1)] removes the last entity of that array,
    an entity whose [element] field is not touched; an empty array stays
    empty.  The entity is pushed on the array of the new element all the
    same. *)
Theorem change_desynchronised (s : Store) (i : Ref) (e : Entity)
    (k : Element) :
  entities s !! i = Some e -> i ∉ members s (element e) -> k <> element e ->
  (forall l y, members s (element e) = l ++ [y] ->
     members (changeEntityElement s i k) (element e) = l
     /\ (y <> i -> kindOf (changeEntityElement s i k) y = kindOf s y))
  /\ (members s (element e) = [] ->
      members (changeEntityElement s i k) (element e) = [])
  /\ members (changeEntityElement s i k) k = members s k ++ [i].
Proof.
  intros He Hni Hk. unfold members in *.
  assert (Hm : forall k',
    get (entityByElement (changeEntityElement s i k)) k'
    = if decide (k' = k) then get (entityByElement s) k ++ [i]
      else if decide (k' = element e)
           then splice1 (get (entityByElement s) (element e))
                        (indexOf (get (entityByElement s) (element e)) i)
           else get (entityByElement s) k').
  { intros k'. unfold changeEntityElement. rewrite He. simpl.
    rewrite !get_put. destruct (decide (k' = k)) as [->|]; [|done].
    by rewrite decide_False. }
  split; [|split].
  - intros l y Hl. split.
    + rewrite Hm, decide_False, decide_True by done.
      rewrite Hl in Hni |- *. by apply splice1_absent.
    + intros Hy. unfold kindOf. by rewrite change_other.
  - intros Hnil. rewrite Hm, decide_False, decide_True by done.
    by rewrite Hnil.
  - by rewrite Hm, decide_True.
Qed.

Lemma filter_filter_same (P : Ref -> Prop) `{forall r, Decision (P r)}
    (l : list Ref) :
  filter P (filter P l) = filter P l.
Proof.
  apply filter_all, Forall_forall. by intros r [? _]%list_elem_of_filter.
Qed.

(** X8.  Under the partition invariant two calls of [changeEntityElement] on
    a live entity amount to the second one; and a call with the element the
    entity already has keeps every entity as it is and moves the entity to
    the end of the array of its element. *)
Theorem change_twice (s : Store) (i : Ref) (k1 k2 : Element) :
  partition s -> (i < length (entities s))%nat ->
  changeEntityElement (changeEntityElement s i k1) i k2
  = changeEntityElement s i k2
  /\ (kindOf s i = Some k2 ->
      entities (changeEntityElement s i k2) = entities s
      /\ members (changeEntityElement s i k2) k2
         = filter (fun r => r <> i) (members s k2) ++ [i]).
Proof.
  intros P Hlt. pose proof (change_partition s i k1 P Hlt) as P1.
  assert (Hlt1 : (i < length (entities (changeEntityElement s i k1)))%nat)
    by (by rewrite change_length).
  destruct (lookup_lt_is_Some_2 _ _ Hlt) as [e He].
  split.
  - apply Store_ext.
    + rewrite (change_entities (changeEntityElement s i k1)), change_lookup.
      rewrite decide_True, He by done. simpl.
      rewrite !change_entities, He. apply list_insert_insert_eq.
    + intros k'. rewrite !change_members by done.
      rewrite filter_app, filter_filter_same. rewrite <- app_assoc. f_equal.
      destruct (decide (k' = k1)); [|done].
      by rewrite filter_cons_False by (intros Hn; by apply Hn).
    + by rewrite !change_randomCalls.
  - intros Hk. split.
    + rewrite change_entities, He. unfold kindOf in Hk. rewrite He in Hk.
      simpl in Hk. injection Hk as <-.
      apply list_insert_id. rewrite He. by destruct e.
    + rewrite change_members by done. by rewrite decide_True.
Qed.

(** ** Extinct elements *)

Lemma update_empty (s : Store) (K : Element) :
  partition s -> members s K = [] ->
  partition (update s) /\ members (update s) K = [].
Proof.
  intros P HK. unfold update.
  apply (foldl_updateOne_ind (fun s1 => partition s1 /\ members s1 K = []));
    [|done].
  intros s1 i [P1 H1]. split; [by apply updateOne_partition|].
  by apply updateOne_empty.
Qed.

Lemma update_split_inv (I : Store -> Prop) (s : Store) (r : Ref) :
  (forall s i, I s -> I (updateOne s i)) -> I s ->
  (r < length (entities s))%nat ->
  exists s1,
    I s1 /\ entities s1 !! r = entities s !! r
    /\ entities (update s) !! r = entities (updateOne s1 r) !! r.
Proof.
  intros Hstep Hs Hlt. unfold update.
  replace (length (entities s)) with (r + S (length (entities s) - S r))%nat by lia.
  rewrite seq_app, foldl_app. simpl.
  exists (foldl updateOne s (seq 0 r)). split; [|split].
  - by apply foldl_updateOne_ind.
  - apply foldl_updateOne_other. rewrite elem_of_seq. lia.
  - apply foldl_updateOne_other. rewrite elem_of_seq. lia.
Qed.

Lemma update_unbeaten (s : Store) (K : Element) (r : Ref) :
  partition s -> members s (enemyOf K) = [] ->
  kindOf s r = Some K -> kindOf (update s) r = Some K.
Proof.
  intros P HK Hr. pose proof (kindOf_live _ _ _ Hr) as Hlt.
  destruct (update_split_inv
              (fun s1 => partition s1 /\ members s1 (enemyOf K) = []) s r)
    as (s1 & [P1 HK1] & H1 & H2); [|done|done|].
  { intros s' i [P' HK']. split; [by apply updateOne_partition|].
    by apply updateOne_empty. }
  assert (Hk : kindOf (update s) r = kindOf (updateOne s1 r) r)
    by (unfold kindOf; by rewrite H2).
  rewrite Hk. unfold updateOne.
  assert (Hr1 : kindOf (updateEntityAt s1 r) r = Some K).
  { rewrite move_kindOf. unfold kindOf. by rewrite H1. }
  pose proof (move_partition s1 r P1) as P2.
  destruct (resolve_cases _ r K P2 Hr1) as [[_ ->]|(l1 & D & l2 & Hl & _)];
    [done|].
  unfold members in Hl, HK1. rewrite move_table, HK1 in Hl. by destruct l1.
Qed.

(** X9.  An element whose enemy is extinct keeps its entities: in a store
    satisfying the partition invariant where the array of the element that
    beats [K] is empty, every entity of element [K] is still of element [K]
    after a tick and after any number of ticks, and the array of [K] does
    not get shorter. *)
Theorem unbeaten_element_persists (s : Store) (K : Element) :
  partition s -> members s (enemyOf K) = [] ->
  (forall r, kindOf s r = Some K -> kindOf (update s) r = Some K)
  /\ (forall n r, kindOf s r = Some K ->
        kindOf (Nat.iter n update s) r = Some K)
  /\ (countOf s K <= countOf (update s) K)%nat.
Proof.
  intros P HK. split; [|split].
  - intros r. by apply update_unbeaten.
  - intros n r Hr.
    assert (Hn : partition (Nat.iter n update s)
                 /\ members (Nat.iter n update s) (enemyOf K) = []
                 /\ kindOf (Nat.iter n update s) r = Some K); [|by destruct Hn as (_ & _ & ?)].
    induction n as [|n (Pn & HKn & Hrn)]; [done|]. simpl.
    destruct (update_empty _ _ Pn HKn) as [P' HK'].
    split; [done|]. split; [done|]. by apply update_unbeaten.
  - unfold countOf. fold (members s K) (members (update s) K).
    apply submseteq_length, NoDup_submseteq; [apply (part_nodup s P)|].
    intros r Hr. apply (partition_member s K r P) in Hr.
    apply partition_member; [by apply update_partition|].
    by apply update_unbeaten.
Qed.

(** ** The count of [loop] *)

Lemma elementsLeft_update (s : Store) :
  partition s -> (elementsLeft (update s) <= elementsLeft s)%Z.
Proof.
  intros P.
  pose proof (fun K H => proj2 (update_empty s K P H)) as Hempty.
  pose proof (Hempty rock) as Hr. pose proof (Hempty paper) as Hp.
  pose proof (Hempty scissors) as Hs. clear Hempty.
  unfold members, elementsLeft in *. simpl in Hr, Hp, Hs.
  destruct (of_rock (entityByElement s));
    destruct (of_paper (entityByElement s));
    destruct (of_scissors (entityByElement s));
    rewrite ?Hr, ?Hp, ?Hs by done; simpl;
    destruct (of_rock (entityByElement (update s)));
    destruct (of_paper (entityByElement (update s)));
    destruct (of_scissors (entityByElement (update s))); simpl; lia.
Qed.

Lemma elementsLeft_zero (s : Store) :
  partition s -> (elementsLeft s = 0%Z <-> entities s = []).
Proof.
  intros P. pose proof (partition_count s P) as Hc.
  unfold countOf, elementsLeft in *. simpl in Hc.
  destruct (of_rock (entityByElement s));
    destruct (of_paper (entityByElement s));
    destruct (of_scissors (entityByElement s));
    destruct (entities s); simpl in *; split; intros; try done; lia.
Qed.

(** X10.  The count [elementsLeft] of [loop] is between 0 and 3; in a store
    satisfying the partition invariant it is 0 exactly when there is no
    entity, a tick never increases it, and once it is at most 1 it stays at
    most 1 over any number of ticks. *)
Theorem elementsLeft_never_increases (s : Store) :
  partition s ->
  (0 <= elementsLeft s <= 3)%Z
  /\ (elementsLeft s = 0%Z <-> entities s = [])
  /\ (elementsLeft (update s) <= elementsLeft s)%Z
  /\ (forall n, (elementsLeft (Nat.iter n update s) <= elementsLeft s)%Z).
Proof.
  intros P. split; [|split; [|split]].
  - unfold elementsLeft.
    destruct (length (of_rock (entityByElement s)) =? 0)%nat;
      destruct (length (of_paper (entityByElement s)) =? 0)%nat;
      destruct (length (of_scissors (entityByElement s)) =? 0)%nat; lia.
  - by apply elementsLeft_zero.
  - by apply elementsLeft_update.
  - intros n.
    assert (Hn : partition (Nat.iter n update s)
                 /\ (elementsLeft (Nat.iter n update s) <= elementsLeft s)%Z);
      [|by destruct Hn].
    induction n as [|n [Pn IH]]; [done|]. simpl.
    split; [by apply update_partition|].
    pose proof (elementsLeft_update _ Pn). lia.
Qed.

(** ** The end of a recording *)

Lemma settle_latched (s : Store) (t now : Q) :
  ~ t == 0 -> fst (settle s t now) = t.
Proof.
  intros Ht. unfold settle.
  assert (Hb : Qeq_bool t 0 = false).
  { apply not_true_iff_false. by rewrite Qeq_bool_iff. }
  rewrite Hb. destruct (elementsLeft s <=? 1)%Z; [|done].
  by destruct (Qltb 1000 (fsub now t)).
Qed.

Lemma settle_settled (s : Store) (t now : Q) :
  (elementsLeft s <= 1)%Z -> ~ t == 0 ->
  settle s t now = (t, Qltb 1000 (fsub now t)).
Proof.
  intros Hs Ht. unfold settle.
  assert (Hb : Qeq_bool t 0 = false).
  { apply not_true_iff_false. by rewrite Qeq_bool_iff. }
  rewrite Hb. destruct (Z.leb_spec (elementsLeft s) 1); [|lia].
  by destruct (Qltb 1000 (fsub now t)).
Qed.

Lemma frames_settled (t : Q) (nows : list Q) (s : Store) (b : bool) :
  partition s -> (elementsLeft s <= 1)%Z -> ~ t == 0 ->
  foldl frame (s, t, b) nows
  = (Nat.iter (length nows) update s, t,
     b || existsb (fun now => Qltb 1000 (fsub now t)) nows).
Proof.
  intros P Hs Ht. revert s b P Hs.
  induction nows as [|now nows IH]; intros s b P Hs.
  - simpl. by rewrite orb_false_r.
  - pose proof (update_partition s P) as P1.
    pose proof (elementsLeft_update s P) as H1.
    assert (Hf : frame (s, t, b) now
                 = (update s, t, b || Qltb 1000 (fsub now t))).
    { unfold frame. by rewrite settle_settled by (done || lia). }
    change (foldl frame (s, t, b) (now :: nows))
      with (foldl frame (frame (s, t, b) now) nows).
    rewrite Hf, IH by (done || lia).
    simpl length. rewrite Nat.iter_succ_r. simpl existsb.
    by rewrite orb_assoc.
Qed.

(** X11.  The end of a recording.  [timeWhenDone], once different from 0, is
    never written again by the last block of [loop], whatever the store (a
    click that brings a second element back does not restart the second of
    dwell).  From a store satisfying the partition invariant with at most
    one element left and [timeWhenDone] latched at [t], a run of recorded
    frames only ticks the store, keeps [t], and calls
    [canvasRecorder.stop()] exactly when for one of its frames the computed
    difference [performance.now() - timeWhenDone], a binary64 subtraction,
    exceeds 1000. *)
Theorem recording_stops (s : Store) (t : Q) (nows : list Q) :
  partition s -> (elementsLeft s <= 1)%Z -> ~ t == 0 ->
  (forall s' now, fst (settle s' t now) = t)
  /\ fst (fst (foldl frame (s, t, false) nows))
     = Nat.iter (length nows) update s
  /\ snd (fst (foldl frame (s, t, false) nows)) = t
  /\ (snd (foldl frame (s, t, false) nows) = true
      <-> exists now, now ∈ nows /\ 1000 < fsub now t).
Proof.
  intros P Hs Ht. rewrite frames_settled by done. simpl.
  split; [intros s' now; by apply settle_latched|].
  split; [done|]. split; [done|].
  rewrite existsb_exists. split.
  - intros (now & Hin & Hlt). exists now.
    split; [by apply list_elem_of_In|by apply Qltb_spec].
  - intros (now & Hin & Hlt). exists now.
    split; [by apply list_elem_of_In|by apply Qltb_spec].
Qed.

(** ** Clusters of any size *)

Section Clusters.
Variable random : nat -> Q.
Variables cos sin : Q -> Q.
Variable PI : Q.

Lemma generateOne_create (around : Vec2) (spread : Q) (k : Element)
    (s : Store) :
  generateOne random cos sin PI around spread k s
  = createEntity random cos sin
      (mkStore (entities s) (entityByElement s) (2 + randomCalls s))
      (fadd (fst around)
            (fmul (cos (fmul (fmul (random (randomCalls s)) PI) 2))
                  (fmul (random (S (randomCalls s))) spread)),
       fadd (snd around)
            (fmul (sin (fmul (fmul (random (randomCalls s)) PI) 2))
                  (fmul (random (S (randomCalls s))) spread)))
      (fmul (fmul (random (randomCalls s)) PI) 2) k.
Proof. reflexivity. Qed.

Lemma generateOne_members (around : Vec2) (spread : Q) (k k' : Element)
    (s : Store) :
  members (generateOne random cos sin PI around spread k s) k'
  = members s k' ++ (if decide (k' = k) then [length (entities s)] else []).
Proof. rewrite generateOne_create. by rewrite create_members. Qed.

Lemma generateOne_prefix (around : Vec2) (spread : Q) (k : Element)
    (s : Store) (r : Ref) (e : Entity) :
  entities s !! r = Some e ->
  entities (generateOne random cos sin PI around spread k s) !! r = Some e.
Proof.
  intros He. rewrite generateOne_create, create_entities.
  by apply lookup_app_l_Some.
Qed.

Lemma iter_generateOne_members (around : Vec2) (spread : Q) (k k' : Element)
    (n : nat) (s : Store) :
  members (Nat.iter n (generateOne random cos sin PI around spread k) s) k'
  = members s k'
    ++ (if decide (k' = k) then seq (length (entities s)) n else []).
Proof.
  induction n as [|n IH].
  - simpl. destruct (decide (k' = k)); by rewrite app_nil_r.
  - simpl Nat.iter. rewrite generateOne_members, IH.
    destruct (iter_generateOne random cos sin PI around spread k n s) as [-> _].
    destruct (decide (k' = k)); [|by rewrite !app_nil_r].
    by rewrite seq_S, app_assoc.
Qed.

Lemma iter_generateOne_prefix (around : Vec2) (spread : Q) (k : Element)
    (n : nat) (s : Store) (r : Ref) (e : Entity) :
  entities s !! r = Some e ->
  entities (Nat.iter n (generateOne random cos sin PI around spread k) s) !! r
  = Some e.
Proof.
  intros He. induction n as [|n IH]; [done|].
  simpl Nat.iter. by apply generateOne_prefix.
Qed.

Lemma iterations_nonpos (count : Q) : count <= 0 -> iterations count = 0%nat.
Proof.
  intros Hc. unfold iterations.
  pose proof (Qceiling_resp_le count 0 Hc) as H.
  change (Qceiling 0) with 0%Z in H. lia.
Qed.
End Clusters.

(** X12.  [generateEntities] for any number [count]: the loop runs
    [ceiling count] times when that is positive and not at all otherwise, so
    a fractional count is rounded up and a zero or negative count leaves the
    store as it is.  Each round appends one entity: the entities already
    there keep their places, the new references are appended in order to the
    array of the element and to no other array, and three random values are
    drawn per round. *)
Theorem generate_any_count (random : nat -> Q) (cos sin : Q -> Q) (PI : Q)
    (s : Store) (around : Vec2) (spread count : Q) (k : Element) :
  let s' := generateEntities random cos sin PI s around spread count k in
  let n := Z.to_nat (Qceiling count) in
  length (entities s') = (length (entities s) + n)%nat
  /\ randomCalls s' = (3 * n + randomCalls s)%nat
  /\ (forall k',
        members s' k'
        = members s k' ++ (if decide (k' = k)
                           then seq (length (entities s)) n else []))
  /\ (forall r e, entities s !! r = Some e -> entities s' !! r = Some e)
  /\ (count <= 0 -> s' = s).
Proof.
  intros s' n. subst s' n. rewrite generate_iter. fold (iterations count).
  destruct (iter_generateOne random cos sin PI around spread k
              (iterations count) s) as [H1 H2].
  split; [done|]. split; [done|].
  split; [intros k'; apply iter_generateOne_members|].
  split; [intros r e; apply iter_generateOne_prefix|].
  intros Hc. by rewrite iterations_nonpos.
Qed.

(** ** Where a cluster lands *)

Section ClusterGeometry.
Variable random : nat -> Q.
Variables cos sin : Q -> Q.
Variable PI : Q.
Hypothesis random_range : forall n, 0 <= random n /\ random n <= 1 - pow2 (-53).
Hypothesis cos_sin_range : forall d, Qabs (cos d) <= 1 /\ Qabs (sin d) <= 1.

(** A product with a factor in [[-1, 1]], as computed, is not larger than
    the other factor when that one is a value of the format. *)
Lemma fmul_unit (c x : Q) :
  Qabs c <= 1 -> 0 <= x -> fl x == x -> Qabs (fmul c x) <= x.
Proof.
  intros Hc%Qabs_Qle_condition Hx Hfix. unfold fmul.
  assert (Hneg : fl (- x) == - x) by (by rewrite fl_opp, Hfix).
  apply Qabs_Qle_condition. split.
  - apply fl_ge; [done|nra].
  - apply fl_le; [done|nra].
Qed.

(** A sum with a term of absolute value at most [r], as computed. *)
Lemma fadd_within (a t r : Q) :
  Qabs t <= r -> fsub a r <= fadd a t <= fadd a r.
Proof.
  intros Ht%Qabs_Qle_condition. unfold fsub, fadd.
  split; apply fl_mono; lra.
Qed.

Lemma create_speed (s : Store) (p : Vec2) (d : Q) (k : Element) :
  exists e,
    entities (createEntity random cos sin s p d k) = entities s ++ [e]
    /\ pos e = p /\ element e = k
    /\ Qabs (fst (vel e)) <= ENTITY_SPEED
    /\ Qabs (snd (vel e)) <= ENTITY_SPEED.
Proof.
  eexists. split; [apply create_entities|]. split; [done|]. split; [done|].
  destruct (random_range (randomCalls s)) as [H0 H1].
  pose proof (pow2_pos (-53)) as Hp.
  destruct (spawnSpeed_range (random (randomCalls s))) as [[Hf1 Hf2] Hsp];
    [lra|].
  destruct (cos_sin_range d) as [Hc Hs].
  assert (Hfix : fl (spawnSpeed (random (randomCalls s)))
                 == spawnSpeed (random (randomCalls s))) by apply fl_idem.
  simpl. unfold ENTITY_SPEED.
  split.
  - apply Qle_trans with (spawnSpeed (random (randomCalls s)));
      [apply fmul_unit; [done|lra|done]|lra].
  - apply Qle_trans with (spawnSpeed (random (randomCalls s)));
      [apply fmul_unit; [done|lra|done]|lra].
Qed.

Lemma generateOne_lands (around : Vec2) (spread : Q) (k : Element)
    (s : Store) :
  pow2 (-1022) < spread ->
  exists e,
    entities (generateOne random cos sin PI around spread k s)
    = entities s ++ [e]
    /\ element e = k
    /\ (fsub (fst around) spread <= fst (pos e) <= fadd (fst around) spread)
    /\ (fsub (snd around) spread <= snd (pos e) <= fadd (snd around) spread)
    /\ Qabs (fst (vel e)) <= ENTITY_SPEED
    /\ Qabs (snd (vel e)) <= ENTITY_SPEED.
Proof.
  intros Hs. rewrite generateOne_create.
  set (direction := fmul (fmul (random (randomCalls s)) PI) 2).
  set (radius := fmul (random (S (randomCalls s))) spread).
  destruct (create_speed
              (mkStore (entities s) (entityByElement s) (2 + randomCalls s))
              (fadd (fst around) (fmul (cos direction) radius),
               fadd (snd around) (fmul (sin direction) radius))
              direction k)
    as (e & He & Hp & Hk & Hv).
  exists e. split; [exact He|]. split; [done|].
  split; [|split]; [| |done].
  - rewrite Hp. simpl.
    destruct (radius_range (random (S (randomCalls s))) spread
                (random_range _) Hs) as [Hr0 Hr1].
    destruct (cos_sin_range direction) as [Hc _].
    apply fadd_within.
    apply Qle_trans with radius; [|by apply Qlt_le_weak].
    apply fmul_unit; [done|done|apply fl_idem].
  - rewrite Hp. simpl.
    destruct (radius_range (random (S (randomCalls s))) spread
                (random_range _) Hs) as [Hr0 Hr1].
    destruct (cos_sin_range direction) as [_ Hc].
    apply fadd_within.
    apply Qle_trans with radius; [|by apply Qlt_le_weak].
    apply fmul_unit; [done|done|apply fl_idem].
Qed.

Lemma generate_lands (s : Store) (around : Vec2) (spread count : Q)
    (k : Element) (r : Ref) (e : Entity) :
  pow2 (-1022) < spread -> (length (entities s) <= r)%nat ->
  entities (generateEntities random cos sin PI s around spread count k) !! r
  = Some e ->
  element e = k
  /\ (fsub (fst around) spread <= fst (pos e) <= fadd (fst around) spread)
  /\ (fsub (snd around) spread <= snd (pos e) <= fadd (snd around) spread)
  /\ Qabs (fst (vel e)) <= ENTITY_SPEED
  /\ Qabs (snd (vel e)) <= ENTITY_SPEED.
Proof.
  intros Hs. revert r e. unfold generateEntities.
  apply (generateLoop_ind
    (fun s' => forall r e, (length (entities s) <= r)%nat ->
       entities s' !! r = Some e ->
       element e = k
       /\ (fsub (fst around) spread <= fst (pos e) <= fadd (fst around) spread)
       /\ (fsub (snd around) spread <= snd (pos e) <= fadd (snd around) spread)
       /\ Qabs (fst (vel e)) <= ENTITY_SPEED
       /\ Qabs (snd (vel e)) <= ENTITY_SPEED)).
  - intros s' IH r e Hr.
    destruct (generateOne_lands around spread k s' Hs) as (e0 & -> & He0).
    destruct (decide (r < length (entities s'))%nat) as [Hlt|Hge].
    + rewrite lookup_app_l by done. by apply IH.
    + intros He. assert (r = length (entities s')) as ->.
      { apply lookup_lt_Some in He. rewrite length_app in He. simpl in He. lia. }
      rewrite list_lookup_middle in He by done. by injection He as <-.
  - intros r e Hr He. apply lookup_lt_Some in He. lia.
Qed.
End ClusterGeometry.

(** X13.  Where a cluster lands, on a platform whose [Math.random()] returns
    binary64 values in [[0, 1)] and whose [Math.cos] and [Math.sin] return
    values in [[-1, 1]].  Every entity appended by [generateEntities] with a
    [spread] that is a positive normal number is of the requested element;
    on each axis its position is between [around - spread] and
    [around + spread] as binary64 computes them (so within the square of
    half-side [spread] around the centre when these two are exact), and its
    velocity is at most [ENTITY_SPEED] in absolute value.  Every entity
    appended by [createEntity] has a velocity in that range on each axis. *)
Theorem cluster_lands (random : nat -> Q) (cos sin : Q -> Q) (PI : Q)
    (s : Store) (around : Vec2) (spread count : Q) (k : Element) :
  (forall n, 0 <= random n /\ random n <= 1 - pow2 (-53)) ->
  (forall d, Qabs (cos d) <= 1 /\ Qabs (sin d) <= 1) ->
  pow2 (-1022) < spread ->
  (forall r e,
     (length (entities s) <= r)%nat ->
     entities (generateEntities random cos sin PI s around spread count k) !! r
     = Some e ->
     element e = k
     /\ (fsub (fst around) spread <= fst (pos e) <= fadd (fst around) spread)
     /\ (fsub (snd around) spread <= snd (pos e) <= fadd (snd around) spread)
     /\ Qabs (fst (vel e)) <= ENTITY_SPEED
     /\ Qabs (snd (vel e)) <= ENTITY_SPEED)
  /\ (forall p d k',
        exists e,
          entities (createEntity random cos sin s p d k') = entities s ++ [e]
          /\ pos e = p /\ element e = k'
          /\ Qabs (fst (vel e)) <= ENTITY_SPEED
          /\ Qabs (snd (vel e)) <= ENTITY_SPEED).
Proof.
  intros Hrange Hunit Hs. split.
  - intros r e. by apply generate_lands.
  - intros p d k'. by apply create_speed.
Qed.

(** ** The click listener *)

(** X14.  A click appends exactly one entity, at the position of the
    pointer, to the canonical array and to the array of its element.  The
    element is rock when the first random value is below [1 / 3] as binary64
    computes it (the quotient rounded to the nearest value); otherwise a
    second value is drawn and the element is paper when that one is below
    [1/2], scissors if not.  Three random values are drawn for a rock and
    four for a paper or a scissors. *)
Theorem click_spawns_one (random : nat -> Q) (cos sin : Q -> Q) (PI : Q)
    (s : Store) (x y : Q) :
  exists e,
    entities (onClick random cos sin PI s x y) = entities s ++ [e]
    /\ pos e = (x, y)
    /\ (element e = rock <-> random (randomCalls s) < fdiv 1 3)
    /\ (element e = paper <->
        ~ random (randomCalls s) < fdiv 1 3
        /\ random (S (randomCalls s)) < 1 # 2)
    /\ randomCalls (onClick random cos sin PI s x y)
       = ((if decide (element e = rock) then 3 else 4) + randomCalls s)%nat
    /\ (forall k,
          members (onClick random cos sin PI s x y) k
          = members s k
            ++ (if decide (k = element e) then [length (entities s)] else [])).
Proof.
  unfold onClick, Math_random. cbv beta iota zeta. simpl randomCalls.
  destruct (Qltb (random (randomCalls s)) (fdiv 1 3)) eqn:H1.
  - cbv beta iota zeta. eexists. split; [rewrite create_entities; simpl; reflexivity|].
    apply Qltb_spec in H1. simpl element.
    split; [done|]. split; [done|]. split; [split; [done|by intros []]|].
    split; [done|]. intros k. by rewrite create_members.
  - apply not_true_iff_false in H1. rewrite Qltb_spec in H1.
    cbv beta iota zeta. simpl randomCalls.
    destruct (Qltb (random (S (randomCalls s))) (1 # 2)) eqn:H2.
    + eexists. split; [rewrite create_entities; simpl; reflexivity|].
      apply Qltb_spec in H2. simpl element.
      split; [done|]. split; [done|]. split; [done|].
      split; [done|]. intros k. by rewrite create_members.
    + apply not_true_iff_false in H2. rewrite Qltb_spec in H2.
      eexists. split; [rewrite create_entities; simpl; reflexivity|]. simpl element.
      split; [done|]. split; [done|]. split; [split; [done|by intros []]|].
      split; [done|]. intros k. by rewrite create_members.
Qed.

(** ** Spawning and converting *)

(** X15.  Under the partition invariant, spawning an entity of one element
    and converting it at once with [changeEntityElement] gives the store
    that spawning it with the new element gives: the same entities, the same
    arrays in the same order, the same position in the random stream. *)
Theorem spawn_then_convert (random : nat -> Q) (cos sin : Q -> Q)
    (s : Store) (p : Vec2) (d : Q) (k1 k2 : Element) :
  partition s ->
  changeEntityElement (createEntity random cos sin s p d k1)
                      (length (entities s)) k2
  = createEntity random cos sin s p d k2.
Proof.
  intros P.
  pose proof (create_partition random cos sin s p d k1 P) as P1.
  assert (Hlt : (length (entities s)
                 < length (entities (createEntity random cos sin s p d k1)))%nat)
    by (rewrite create_length; lia).
  assert (Hfresh : forall k, length (entities s) ∉ members s k).
  { intros k Hin. assert (length (entities s) < length (entities s))%nat; [|lia].
    apply (part_cover s P). eauto. }
  apply Store_ext.
  - rewrite change_entities, !create_entities.
    rewrite list_lookup_middle by done.
    replace (length (entities s)) with (length (entities s) + 0)%nat at 1 by lia.
    by rewrite insert_app_r.
  - intros k. rewrite change_members by done. rewrite !create_members.
    rewrite filter_app. f_equal.
    rewrite filter_all by (apply Forall_forall; intros r Hr ->; by apply (Hfresh k)).
    destruct (decide (k = k1)); [|by rewrite app_nil_r].
    rewrite filter_cons_False by (intros Hn; by apply Hn). by rewrite app_nil_r.
  - by rewrite change_randomCalls.
Qed.


End Platform.

(** * The properties on a concrete platform *)

(** ** The sample platform *)

Lemma sample_random_range (n : nat) :
  0 <= sample_random n /\ sample_random n <= 1 - pow2 (-53).
Proof.
  unfold sample_random.
  assert (Hn : 0 <= inject_Z (Z.of_nat n)).
  { change 0 with (inject_Z 0). rewrite <- Zle_Qle. lia. }
  revert Hn. generalize (inject_Z (Z.of_nat n)). intros q Hn.
  assert (H0 : 0 <= 1 / (q + 2)) by (apply Qle_shift_div_l; lra).
  assert (H1 : 1 / (q + 2) <= 1 # 2) by (apply Qle_shift_div_r; lra).
  split.
  - by apply fl_nonneg.
  - apply Qle_trans with (1 # 2).
    + apply fl_le; [apply fl_const_half|done].
    + vm_compute. discriminate.
Qed.

Lemma sq_nonneg (a : Q) : 0 <= a * a.
Proof. pose proof (Qsqr_nonneg a) as H. simpl in H. exact H. Qed.

Lemma sample_cos_sin_range (d : Q) :
  Qabs (sample_cos d) <= 1 /\ Qabs (sample_sin d) <= 1.
Proof.
  pose proof (sq_nonneg d) as H0.
  pose proof (sq_nonneg (1 + d)) as Hp. pose proof (sq_nonneg (1 - d)) as Hm.
  assert (Ep : (1 + d) * (1 + d) == 1 + 2 * d + d * d) by ring.
  assert (Em : (1 - d) * (1 - d) == 1 - 2 * d + d * d) by ring.
  rewrite Ep in Hp. rewrite Em in Hm.
  assert (Hd : 0 < 1 + d * d) by lra.
  assert (F1 : fl 1 == 1) by apply fl_const_1.
  assert (F2 : fl (- (1)) == - (1)) by (vm_compute; reflexivity).
  unfold sample_cos, sample_sin. split; apply Qabs_Qle_condition; split.
  - apply fl_ge; [done|]. apply Qle_shift_div_l; [done|lra].
  - apply fl_le; [done|]. apply Qle_shift_div_r; [done|lra].
  - apply fl_ge; [done|]. apply Qle_shift_div_l; [done|lra].
  - apply fl_le; [done|]. apply Qle_shift_div_r; [done|lra].
Qed.

Lemma PI64_normal : pow2 (-1022) < PI64.
Proof. by vm_compute. Qed.

Lemma spread_normal : pow2 (-1022) < 50.
Proof. by vm_compute. Qed.

Lemma store2_partition : partition store2.
Proof. apply partition_check_sound. vm_compute. reflexivity. Qed.

(** ** The scenarios of the specification *)

(** A stationary rock at [(100, 100)] and a stationary paper at
    [(101, 100)]; after one tick the rock is a paper. *)
Example conversion_scenario :
  kindOf store2 0 = Some rock
  /\ kindOf (update hypot_cr store2) 0 = Some paper
  /\ members (update hypot_cr store2) rock = []
  /\ members (update hypot_cr store2) paper = [1; 0]%nat.
Proof. repeat split; vm_compute; reflexivity. Qed.

(** At distance exactly [2 * ENTITY_SIZE] there is no conversion. *)
Example touching_scenario :
  let s := mkStore [mkEntity (100, 100) (0, 0) rock;
                    mkEntity (120, 100) (0, 0) paper]
                   (mkByElement [0%nat] [1%nat] []) 0 in
  checkCollision hypot_cr s 0 = s /\ kindOf (update hypot_cr s) 0 = Some rock.
Proof. split; vm_compute; reflexivity. Qed.

(** Rounding at the thresholds of the code. *)

(** At [x = 389.5] with velocity [0.5 + 2^-53] the sum rounds to 390: the
    entity is not reflected, although the unrounded sum is beyond 390. *)
Example rounded_sum_scenario :
  390 < (779 # 2) + ((1 # 2) + pow2 (-53))
  /\ updateAxis 400 (779 # 2) ((1 # 2) + pow2 (-53))
     = (390, (1 # 2) + pow2 (-53)).
Proof. split; [by vm_compute|vm_compute; reflexivity]. Qed.

(** The largest draw below 1 gives the full speed. *)
Example full_speed_scenario : spawnSpeed (1 - pow2 (-53)) = 1.
Proof. vm_compute. reflexivity. Qed.

(** The [1 / 3] of the click listener is the binary64 value below one
    third; a draw equal to it is not a rock. *)
Example third_scenario :
  fdiv 1 3 < 1 / 3 /\ Qltb (fdiv 1 3) (fdiv 1 3) = false.
Proof. split; [by vm_compute|vm_compute; reflexivity]. Qed.

(** With [timeWhenDone] at [0.1], the frame at [1000.1] does not stop the
    recorder: the computed difference is 1000. *)
Example dwell_scenario :
  1000 < fl (10001 # 10) - fl (1 # 10)
  /\ settle (mkStore [] (mkByElement [] [] []) 0) (fl (1 # 10)) (fl (10001 # 10))
     = (fl (1 # 10), false).
Proof. split; [by vm_compute|vm_compute; reflexivity]. Qed.

(** The Euclidean distance is not the computed one.  The rock and the paper
    of [storeNear] are at a Euclidean distance strictly below
    [2 * ENTITY_SIZE]; the difference of their [x] coordinates rounds to
    [-20], so on any platform whose [Math.hypot] gives 20 at [(-20, 0)], the
    correctly rounded one among them, the rock stays a rock. *)
Lemma resolver_contract_counterexample :
  (partition storeNear /\ kindOf storeNear 0 = Some rock)
  /\ (exists D, kindOf storeNear D = Some (enemyOf rock)
                /\ euclidInRange storeNear 0 D)
  /\ (forall hypot : Q -> Q -> Q,
        hypot (-20) 0 == 20 ->
        kindOf (checkCollision hypot storeNear 0) 0 = Some rock)
  /\ kindOf (checkCollision hypot_cr storeNear 0) 0 = Some rock
  /\ ~ (kindOf (checkCollision hypot_cr storeNear 0) 0 = Some (enemyOf rock)
        <-> exists D, kindOf storeNear D = Some (enemyOf rock)
                      /\ euclidInRange storeNear 0 D).
Proof.
  assert (Hnear : exists D, kindOf storeNear D = Some (enemyOf rock)
                            /\ euclidInRange storeNear 0 D).
  { exists 1%nat. split; [reflexivity|].
    exists (mkEntity (fl (7 # 10), 100) (0, 0) rock),
           (mkEntity (fl (207 # 10), 100) (0, 0) paper).
    split; [reflexivity|]. split; [reflexivity|]. by vm_compute. }
  assert (Hkeep : kindOf (checkCollision hypot_cr storeNear 0) 0 = Some rock)
    by (vm_compute; reflexivity).
  split; [split; [apply partition_check_sound; vm_compute|]; reflexivity|].
  split; [exact Hnear|]. split; [|split; [exact Hkeep|]].
  - intros hypot H20.
    assert (Hc : collides hypot (mkEntity (fl (7 # 10), 100) (0, 0) rock)
                   (mkEntity (fl (207 # 10), 100) (0, 0) paper) = false).
    { apply not_true_iff_false. rewrite collides_spec.
      unfold distance. simpl pos. simpl fst. simpl snd.
      replace (fsub (fl (7 # 10)) (fl (207 # 10))) with (-20)
        by (vm_compute; reflexivity).
      replace (fsub 100 100) with 0 by (vm_compute; reflexivity).
      rewrite H20. unfold ENTITY_SIZE. lra. }
    unfold checkCollision. simpl. rewrite Hc. reflexivity.
  - intros [_ H]. specialize (H Hnear). rewrite Hkeep in H. discriminate.
Qed.

(** ** The theorems at concrete inputs *)

(** The invariant and its preservation on the rock-and-paper store. *)
Lemma partition_invariant_witness :
  partition store2 /\ partition (update hypot_cr store2).
Proof.
  split; [exact store2_partition|].
  exact (proj1 (proj2 (proj2 (proj2
    (partition_invariant hypot_cr sample_random sample_cos sample_sin PI64)
    store2 store2_partition)))).
Defined.

(** The contract on the rock-and-paper store, for the rock. *)
Lemma resolver_contract_witness :
  partition store2 /\ kindOf store2 0 = Some rock
  /\ (kindOf (checkCollision hypot_cr store2 0) 0 = Some paper
      <-> exists D, kindOf store2 D = Some paper /\ inRange hypot_cr store2 0 D).
Proof.
  split; [exact store2_partition|]. split; [reflexivity|].
  exact (proj1 (resolver_contract hypot_cr store2 0 rock store2_partition eq_refl)).
Defined.

(** After a tick of the rock-and-paper store both entities are papers, and
    the resolver leaves the second one alone. *)
Lemma no_self_dominance_witness :
  partition store2 /\ steps hypot_cr store2 (update hypot_cr store2)
  /\ ((forall D, kindOf (update hypot_cr store2) D = Some scissors ->
         ~ inRange hypot_cr (update hypot_cr store2) 1 D) ->
      checkCollision hypot_cr (update hypot_cr store2) 1
      = update hypot_cr store2).
Proof.
  assert (He : entities (update hypot_cr store2) !! 1%nat
               = Some (mkEntity (101, 100) (0, 0) paper))
    by (vm_compute; reflexivity).
  split; [exact store2_partition|].
  split; [apply (steps_ticks hypot_cr store2 1)|].
  exact (proj1 (proj2 (proj1 (proj2 (proj2 (no_self_dominance hypot_cr)))
    store2 (update hypot_cr store2) 1%nat paper
    (mkEntity (101, 100) (0, 0) paper) store2_partition
    (steps_ticks hypot_cr store2 1) He eq_refl))).
Defined.

(** The rock-and-paper store has no scissors, before and after a tick. *)
Lemma eliminated_stays_eliminated_witness :
  partition store2 /\ members store2 scissors = []
  /\ members (update hypot_cr store2) scissors = [].
Proof.
  split; [exact store2_partition|]. split; [reflexivity|].
  exact (proj1 (eliminated_stays_eliminated hypot_cr store2 scissors
                  store2_partition eq_refl)).
Defined.

(** A cluster of two rocks on the sample platform. *)
Lemma spawner_contract_witness :
  (forall n : nat, 0 <= sample_random n /\ sample_random n <= 1 - pow2 (-53))
  /\ pow2 (-1022) < PI64
  /\ length (entities (generateEntities sample_random sample_cos sample_sin
                         PI64 initial (100, 100) 50
                         (inject_Z (Z.of_nat 2)) rock))
     = 2%nat.
Proof.
  split; [exact sample_random_range|]. split; [exact PI64_normal|].
  exact (proj1 (proj2 (proj1 (proj2 (proj2
    (spawner_contract sample_random sample_cos sample_sin PI64
       initial sample_random_range PI64_normal))) (100, 100) 50 2%nat rock))).
Defined.

(** A reflection at the left wall of the canvas. *)
Lemma reflection_lands_on_wall_witness :
  2 * ENTITY_SIZE <= 400
  /\ (fadd 5 (-1) < ENTITY_SIZE ->
      fst (updateAxis 400 5 (-1)) == ENTITY_SIZE
      /\ snd (updateAxis 400 5 (-1)) = -1 * -1).
Proof.
  assert (H : 2 * ENTITY_SIZE <= 400) by (unfold ENTITY_SIZE; lra).
  split; [exact H|]. exact (proj1 (reflection_lands_on_wall 400 5 (-1) H)).
Defined.

(** An entity on the left wall moving left. *)
Lemma no_double_reflection_witness :
  let e := mkEntity (10, 200) (-1, 0) rock in
  inArena e
  /\ ~ leaves (canvas_width canvas) (fst (pos (updateEntity e)))
              (fst (vel (updateEntity e))).
Proof.
  assert (H1 : inArena (mkEntity (10, 200) (-1, 0) rock))
    by (unfold inArena, ENTITY_SIZE; simpl; unfold width, height; lra).
  assert (H2 : Qabs (-1) <= canvas_width canvas - 2 * ENTITY_SIZE)
    by (vm_compute; discriminate).
  assert (H3 : Qabs 0 <= canvas_height canvas - 2 * ENTITY_SIZE)
    by (vm_compute; discriminate).
  assert (H4 : leaves (canvas_width canvas) 10 (-1))
    by (left; vm_compute; reflexivity).
  split; [exact H1|].
  exact (proj1 (no_double_reflection (mkEntity (10, 200) (-1, 0) rock) H1 H2 H3) H4).
Defined.


(** A rock that is in no array, beside a rock that is in the rock array:
    turning the first into a paper evicts the second. *)
Lemma change_desynchronised_witness :
  let s := mkStore [mkEntity (0, 0) (0, 0) rock; mkEntity (50, 50) (0, 0) rock]
                   (mkByElement [1%nat] [] []) 0 in
  members (changeEntityElement s 0 paper) rock = []
  /\ members (changeEntityElement s 0 paper) paper = [0%nat].
Proof.
  pose (s := mkStore [mkEntity (0, 0) (0, 0) rock; mkEntity (50, 50) (0, 0) rock]
                     (mkByElement [1%nat] [] []) 0).
  assert (H1 : entities s !! 0%nat = Some (mkEntity (0, 0) (0, 0) rock))
    by reflexivity.
  assert (H2 : 0%nat ∉ members s rock).
  { intros H. apply list_elem_of_singleton in H. discriminate. }
  assert (H3 : paper <> rock) by discriminate.
  pose proof (change_desynchronised s 0 _ paper H1 H2 H3) as (Ha & _ & Hc).
  split; [exact (proj1 (Ha [] 1%nat eq_refl))|exact Hc].
Defined.

(** On the rock-and-paper store: rock to scissors to paper is rock to
    paper. *)
Lemma change_twice_witness :
  partition store2
  /\ changeEntityElement (changeEntityElement store2 0 scissors) 0 paper
     = changeEntityElement store2 0 paper.
Proof.
  assert (H : (0 < length (entities store2))%nat) by (simpl; lia).
  split; [exact store2_partition|].
  exact (proj1 (change_twice store2 0 scissors paper store2_partition H)).
Defined.

(** The rock-and-paper store has no scissors, so its paper stays paper. *)
Lemma unbeaten_element_persists_witness :
  partition store2 /\ members store2 (enemyOf paper) = []
  /\ kindOf (update hypot_cr store2) 1 = Some paper.
Proof.
  split; [exact store2_partition|]. split; [reflexivity|].
  exact (proj1 (unbeaten_element_persists hypot_cr store2 paper
                  store2_partition eq_refl) 1%nat eq_refl).
Defined.

(** The rock-and-paper store: two elements before the tick, one after. *)
Lemma elementsLeft_never_increases_witness :
  partition store2
  /\ elementsLeft store2 = 2%Z
  /\ elementsLeft (update hypot_cr store2) = 1%Z
  /\ (elementsLeft (update hypot_cr store2) <= elementsLeft store2)%Z.
Proof.
  split; [exact store2_partition|]. split; [reflexivity|].
  split; [vm_compute; reflexivity|].
  exact (proj1 (proj2 (proj2
    (elementsLeft_never_increases hypot_cr store2 store2_partition)))).
Defined.

(** The store of papers left by a tick of the rock-and-paper store, latched
    at the time [0.1]: the frame at [1000.1], whose computed difference is
    1000, does not stop the recorder; the frame at 2000 does. *)
Lemma recording_stops_witness :
  partition (update hypot_cr store2)
  /\ (elementsLeft (update hypot_cr store2) <= 1)%Z
  /\ ~ fl (1 # 10) == 0
  /\ fsub (fl (10001 # 10)) (fl (1 # 10)) == 1000
  /\ snd (foldl (frame hypot_cr) (update hypot_cr store2, fl (1 # 10), false)
            [fl (10001 # 10); 2000])
     = true.
Proof.
  assert (P : partition (update hypot_cr store2))
    by (apply partition_check_sound; vm_compute; reflexivity).
  assert (H1 : (elementsLeft (update hypot_cr store2) <= 1)%Z)
    by (vm_compute; discriminate).
  assert (H2 : ~ fl (1 # 10) == 0) by (intros H; vm_compute in H; discriminate H).
  split; [exact P|]. split; [exact H1|]. split; [exact H2|].
  split; [vm_compute; reflexivity|].
  apply (proj2 (proj2 (proj2 (recording_stops hypot_cr (update hypot_cr store2)
    (fl (1 # 10)) [fl (10001 # 10); 2000] P H1 H2)))).
  exists 2000. split; [by apply list_elem_of_In; right; left|].
  vm_compute. reflexivity.
Defined.

(** A cluster of two rocks around [(100, 100)] with spread 50, on the sample
    platform: the second rock lies between 50 and 150 on the [x] axis. *)
Lemma cluster_lands_witness :
  (forall n : nat, 0 <= sample_random n /\ sample_random n <= 1 - pow2 (-53))
  /\ (forall d : Q, Qabs (sample_cos d) <= 1 /\ Qabs (sample_sin d) <= 1)
  /\ pow2 (-1022) < 50
  /\ match entities (generateEntities sample_random sample_cos sample_sin
                       PI64 initial (100, 100) 50 2 rock) !! 1%nat
     with
     | Some e => fsub 100 50 <= fst (pos e) <= fadd 100 50
     | None => True
     end.
Proof.
  split; [exact sample_random_range|]. split; [exact sample_cos_sin_range|].
  split; [exact spread_normal|].
  destruct (entities (generateEntities sample_random sample_cos sample_sin
                        PI64 initial (100, 100) 50 2 rock) !! 1%nat)
    as [e|] eqn:He; [|exact I].
  exact (proj1 (proj2 (proj1 (cluster_lands sample_random sample_cos
    sample_sin PI64 initial (100, 100) 50 2 rock sample_random_range
    sample_cos_sin_range spread_normal) 1%nat e (Nat.le_0_l 1) He))).
Defined.

(** On the rock-and-paper store: a rock spawned and turned into scissors. *)
Lemma spawn_then_convert_witness :
  partition store2
  /\ changeEntityElement
       (createEntity sample_random sample_cos sample_sin store2
                     (30, 40) 0 rock) 2 scissors
     = createEntity sample_random sample_cos sample_sin store2
                    (30, 40) 0 scissors.
Proof.
  split; [exact store2_partition|].
  exact (spawn_then_convert sample_random sample_cos sample_sin
           store2 (30, 40) 0 rock scissors store2_partition).
Defined.
